(** * pydantic-ai-flow: the backend of the flow editor

    A shallow embedding of [src/backend/server.py]: the request models, the
    dynamic output model of [create_output_model], the result handling of
    [run_agent] and the code generator [generate_python_code] with its
    scan-until-done loop over the node list. *)

From Stdlib Require Import Ascii String ZArith PrimFloat.
From stdpp Require Import gmap strings list pretty.

Set Warnings "-register-all".
Local Open Scope string_scope.
Local Open Scope list_scope.
Local Open Scope Z_scope.

(** ** The double quote and the line feed, by their codes *)

Definition dquote : string := String "034"%char EmptyString.
Definition newline : string := String "010"%char EmptyString.

(** ** Request models (server.py, lines 34-60 and 203-216) *)

Record OutputField := {
  field_name : string;
  field_type : string;
  field_description : option string
}.

Record OutputStructure := {
  structure_name : string;
  structure_fields : list OutputField
}.

Record APICredentials := {
  openai_api_key : option string;
  anthropic_api_key : option string;
  google_api_key : option string
}.

Record AgentConfig := {
  label : string;
  model_provider : string;
  model_name : string;
  temperature : float;
  max_tokens : Z;
  system_prompts : list string;
  response_tokens_limit : Z;
  total_tokens_limit : Z;
  output_structure : option OutputStructure;
  selected_output_fields : option (list string)
}.

Record FlowNode := {
  node_id : string;
  node_type : string;
  node_config : AgentConfig;
  node_position : list (string * float)
}.

Record FlowEdge := {
  edge_id : string;
  source : string;
  target : string
}.

(** ** Python values and exceptions *)

(** The values an attribute of a request model can hold. *)
Inductive pyval :=
| PNone
| PStr (s : string)
| PInt (z : Z)
| PFloat (f : float)
| PList (l : list pyval)
| PTuple (l : list pyval)
| PField (f : OutputField)
| PModel (o : OutputStructure).

(** The exceptions the code can meet. All are subclasses of [Exception] but
    the last, which stands for those that are not ([asyncio.CancelledError],
    [KeyboardInterrupt], [SystemExit]) and that [except Exception] lets
    pass. *)
Inductive exn :=
| KeyError (key : string)
| AttributeError (cls attr : string)
| IndexError (msg : string)
| TypeError (msg : string)
| ValidationError (msg : string)
| HTTPException (status : Z) (detail : string)
| OtherError (msg : string)
| Interrupt (cls : string).

(** A computation returns, raises, or is cut off when the fuel of a loop runs
    out before the loop is done. *)
Inductive outcome (A : Type) :=
| Return (a : A)
| Raise (e : exn)
| OutOfFuel.
Arguments Return {A} a.
Arguments Raise {A} e.
Arguments OutOfFuel {A}.

#[global] Instance outcome_ret : MRet outcome := @Return.
#[global] Instance outcome_bind : MBind outcome := λ A B k m,
  match m with
  | Return a => k a
  | Raise e => Raise e
  | OutOfFuel => OutOfFuel
  end.

Definition returned {A} (m : outcome A) : bool :=
  match m with Return _ => true | _ => false end.

Definition completed {A} (m : outcome A) : bool :=
  match m with OutOfFuel => false | _ => true end.

(** The class name of an exception, as [type(e).__name__] gives it. *)
Definition exn_kind (e : exn) : string :=
  match e with
  | KeyError _ => "KeyError"
  | AttributeError _ _ => "AttributeError"
  | IndexError _ => "IndexError"
  | TypeError _ => "TypeError"
  | ValidationError _ => "ValidationError"
  | HTTPException _ _ => "HTTPException"
  | OtherError _ => "Exception"
  | Interrupt cls => cls
  end.

(** Insertion-ordered dictionaries with string keys: [d[k] = v] keeps the
    position of a key that is already there. *)
Fixpoint dict_set {V} (d : list (string * V)) (k : string) (v : V)
  : list (string * V) :=
  match d with
  | [] => [(k, v)]
  | (k', v') :: d' =>
      if decide (k' = k) then (k, v) :: d' else (k', v') :: dict_set d' k v
  end.

Fixpoint dict_get {V} (d : list (string * V)) (k : string) : option V :=
  match d with
  | [] => None
  | (k', v) :: d' => if decide (k' = k) then Some v else dict_get d' k
  end.

(** [d[k]]: a missing key raises [KeyError]. *)
Definition dict_getitem {V} (d : list (string * V)) (k : string) : outcome V :=
  match dict_get d k with
  | Some v => Return v
  | None => Raise (KeyError k)
  end.

(** ** Attribute access on [AgentConfig] *)

(** The fields that class [AgentConfig] declares, with their values. *)
Definition AgentConfig_fields (c : AgentConfig) : list (string * pyval) :=
  [ ("label", PStr (label c));
    ("model_provider", PStr (model_provider c));
    ("model_name", PStr (model_name c));
    ("temperature", PFloat (temperature c));
    ("max_tokens", PInt (max_tokens c));
    ("system_prompts", PList (PStr <$> system_prompts c));
    ("response_tokens_limit", PInt (response_tokens_limit c));
    ("total_tokens_limit", PInt (total_tokens_limit c));
    ("output_structure",
      match output_structure c with Some o => PModel o | None => PNone end);
    ("selected_output_fields",
      match selected_output_fields c with
      | Some l => PList (PStr <$> l)
      | None => PNone
      end) ].

(** [c.attr]: a name the class does not declare raises [AttributeError]. *)
Definition getattr (c : AgentConfig) (attr : string) : outcome pyval :=
  match dict_get (AgentConfig_fields c) attr with
  | Some v => Return v
  | None => Raise (AttributeError "AgentConfig" attr)
  end.

(** ** Built-in operations on values *)

Definition type_name (v : pyval) : string :=
  match v with
  | PNone => "NoneType"
  | PStr _ => "str"
  | PInt _ => "int"
  | PFloat _ => "float"
  | PList _ => "list"
  | PTuple _ => "tuple"
  | PField _ => "OutputField"
  | PModel _ => "OutputStructure"
  end.

(** Truth value of a value in a condition. *)
Definition py_bool (v : pyval) : bool :=
  match v with
  | PNone => false
  | PStr s => negb (bool_decide (s = EmptyString))
  | PInt z => negb (bool_decide (z = 0))
  | PFloat f => negb (PrimFloat.eqb f 0%float)
  | PList l | PTuple l => negb (bool_decide (l = []))
  | PField _ | PModel _ => true
  end.

Fixpoint chars (s : string) : list string :=
  match s with
  | EmptyString => []
  | String a s' => String a EmptyString :: chars s'
  end.

(** [for x in v]: the items a loop over [v] sees; a pydantic model yields its
    (name, value) pairs. *)
Definition py_iter (v : pyval) : outcome (list pyval) :=
  match v with
  | PList l | PTuple l => Return l
  | PStr s => Return (PStr <$> chars s)
  | PField f =>
      Return [ PTuple [PStr "name"; PStr (field_name f)];
               PTuple [PStr "type"; PStr (field_type f)];
               PTuple [PStr "description";
                       match field_description f with
                       | Some d => PStr d
                       | None => PNone
                       end] ]
  | PModel o =>
      Return [ PTuple [PStr "name"; PStr (structure_name o)];
               PTuple [PStr "fields"; PList (PField <$> structure_fields o)] ]
  | _ => Raise (TypeError ("'" +:+ type_name v +:+ "' object is not iterable"))
  end.

(** [v[0]] *)
Definition py_first (v : pyval) : outcome pyval :=
  match v with
  | PList l | PTuple l =>
      match l with
      | x :: _ => Return x
      | [] => Raise (IndexError (type_name v +:+ " index out of range"))
      end
  | PStr s =>
      match chars s with
      | c :: _ => Return (PStr c)
      | [] => Raise (IndexError "string index out of range")
      end
  | _ =>
      Raise (TypeError
               ("'" +:+ type_name v +:+ "' object is not subscriptable"))
  end.

(** ** The generated program (server.py, lines 218-348) *)

Definition header : list string :=
  [ "from typing import Optional, List, Dict, Any, Union";
    "from pydantic import BaseModel, Field";
    "from pydantic_ai import Agent";
    "from pydantic_ai.models.openai import OpenAIModel";
    "from pydantic_ai.models.anthropic import AnthropicModel";
    "from pydantic_ai.models.gemini import GeminiModel";
    EmptyString;
    "# Output Models" ].

(** One field line of an emitted output class (lines 235-237). *)
Definition field_str (f : OutputField) : string :=
  let line := "    " +:+ field_name f +:+ ": " +:+ field_type f in
  match field_description f with
  | Some d =>
      if decide (d = EmptyString) then line
      else line +:+ " = Field(description=" +:+ dquote +:+ d +:+ dquote +:+ ")"
  | None => line
  end.

(** The class emitted for one node (lines 232-244). *)
Definition output_model_lines (node : FlowNode) : list string :=
  match output_structure (node_config node) with
  | Some o =>
      ("class " +:+ structure_name o +:+ "(BaseModel):")
        :: (field_str <$> structure_fields o) ++ [EmptyString]
  | None => []
  end.

Definition run_flow_head : list string :=
  [ "def run_flow(prompt: str, credentials: dict) -> List[Dict[str, Any]]:";
    "    results = []";
    EmptyString ].

Definition footer : list string :=
  [ "    return results";
    EmptyString;
    "if __name__ == '__main__':";
    "    # Example usage";
    "    credentials = {";
    "        'openai_api_key': 'your-openai-key',";
    "        'anthropic_api_key': 'your-anthropic-key',";
    "        'google_api_key': 'your-google-key'";
    "    }";
    "    results = run_flow('Your prompt here', credentials)";
    "    for result in results:";
    "        print(f" +:+ dquote +:+ "Node {result['node_id']} output:"
      +:+ dquote +:+ ")";
    "        print(result['result'])";
    EmptyString ].

(** The table of line 276. *)
Definition model_setup_table : list (string * string) :=
  [ ("openai", "OpenAIModel");
    ("anthropic", "AnthropicModel");
    ("google-gla", "GeminiModel") ].

(** [get_input_nodes] (lines 260-261). *)
Definition get_input_nodes (edges : list FlowEdge) (id : string)
  : list string :=
  source <$> filter (λ e, target e = id) edges.

(** [nodes_by_id] (line 258): a later node replaces an earlier one with the
    same id. *)
Definition nodes_by_id (nodes : list FlowNode) : gmap string FlowNode :=
  foldl (λ m node, <[node_id node := node]> m) ∅ nodes.

(** [", ".join(l)] and the like. *)
Definition join (sep : string) (l : list string) : string :=
  String.concat sep l.

(** What the loop carries from node to node. *)
Record gen_state := {
  code : list string;
  node_outputs : gmap string string;
  processed_nodes : gset string
}.

(** ** The processing loop (lines 263-270 and 329)

    The loop is written over the work [emit] done for a node that is ready
    (lines 272-327), which [generate_python_code] fills with [emit_node]. *)

Section Loop.

Variable emit : FlowNode → list string → gen_state → outcome gen_state.

(** One turn of the [for] loop: a node already processed, or with an input
    not yet processed, is skipped. *)
Definition visit (edges : list FlowEdge) (node : FlowNode) (st : gen_state)
    : outcome gen_state :=
  if decide (node_id node ∈ processed_nodes st) then Return st
  else
    let input_nodes := get_input_nodes edges (node_id node) in
    if forallb (λ n, bool_decide (n ∈ processed_nodes st)) input_nodes then
      st' ← emit node input_nodes st;
      Return {| code := code st';
                node_outputs := node_outputs st';
                processed_nodes := {[node_id node]} ∪ processed_nodes st' |}
    else Return st.

(** One full [for node in nodes] scan. *)
Fixpoint scan (edges : list FlowEdge) (todo : list FlowNode) (st : gen_state)
    : outcome gen_state :=
  match todo with
  | [] => Return st
  | node :: rest =>
      st' ← visit edges node st;
      scan edges rest st'
  end.

(** The [while] loop of line 263; [fuel] bounds the number of scans. *)
Fixpoint process (fuel : nat) (nodes : list FlowNode) (edges : list FlowEdge)
    (st : gen_state) : outcome gen_state :=
  if decide (size (processed_nodes st) < length nodes)%nat then
    match fuel with
    | O => OutOfFuel
    | S fuel' =>
        st' ← scan edges nodes st;
        process fuel' nodes edges st'
    end
  else Return st.

End Loop.

(** ** What the endpoints exchange (lines 62-86) *)

Record AgentRunRequest := {
  config : AgentConfig;
  credentials : APICredentials;
  prompt : string
}.

Record AgentRunResponse := {
  result : string;
  structured_output : option (list (string * pyval));
  usage : option (list (string * Z));
  error : option string
}.

(** The types a field of a dynamic output model can get (lines 90-97), and
    [Any]. *)
Inductive PyType :=
  TStr | TInt | TFloat | TBool | TListStr | TDictStrAny | TAny.

(** The [data] of a finished agent run: a string, an instance carrying
    [__dict__] (with its [str] text), or a value of a built-in type without
    [__dict__]. *)
Inductive result_data :=
| DataStr (s : string)
| DataObject (shown : string) (attrs : list (string * pyval))
| DataNone
| DataInt (z : Z)
| DataList (l : list string).

Record run_result := {
  data : result_data;
  usage_of : option (list (string * Z))
}.

Record model_settings := {
  ms_temperature : float;
  ms_max_tokens : Z;
  ms_response_tokens_limit : Z;
  ms_total_tokens_limit : Z
}.

(** The settings that [run_agent] passes to the run (lines 162-167). *)
Definition settings_of (r : AgentRunRequest) : model_settings :=
  {| ms_temperature := temperature (config r);
     ms_max_tokens := max_tokens (config r);
     ms_response_tokens_limit := response_tokens_limit (config r);
     ms_total_tokens_limit := total_tokens_limit (config r) |}.

Section Server.

(** [str(v)] as an f-string applies it to a value that is not statically a
    string: the interpreter's formatting (of floats in particular) is left
    open. *)
Variable py_str : pyval → string.

(** [str(e)] of an exception. *)
Variable str_exn : exn → string.

(** pydantic's [create_model] and the class it builds. *)
Variable ModelClass : Type.
Variable create_model :
  string → list (string * (PyType * string)) → outcome ModelClass.

(** pydantic_ai: building an [Agent] on a provider model and running it.
    The arguments are the model class, the model name, the API key, the
    system prompt, the result type ([None] for [str]), the prompt and the
    model settings. *)
Variable agent_run :
  string → string → string → string → option ModelClass → string →
  model_settings → outcome run_result.

(** The inner loop of lines 289-290 over the selected fields of one input. *)
Definition selected_of_input (outputs : gmap string string) (input_id : string)
    (selected : pyval) : outcome (list string) :=
  items ← py_iter selected;
  mapM (λ field,
          out ← (match outputs !! input_id with
                 | Some v => Return v
                 | None => Raise (KeyError input_id)
                 end);
          Return (out +:+ "." +:+ py_str field)) items.

(** Lines 286-290: the references to the selected fields of every input. *)
Fixpoint collect_selected (by_id : gmap string FlowNode)
    (outputs : gmap string string) (input_nodes : list string)
    : outcome (list string) :=
  match input_nodes with
  | [] => Return []
  | input_id :: rest =>
      input_node ← (match by_id !! input_id with
                    | Some n => Return n
                    | None => Raise (KeyError input_id)
                    end);
      selected ← getattr (node_config input_node) "selectedOutputFields";
      here ← (if py_bool selected then
                selected' ← getattr (node_config input_node)
                              "selectedOutputFields";
                selected_of_input outputs input_id selected'
              else Return ([] : list string));
      others ← collect_selected by_id outputs rest;
      Return (here ++ others)
  end.

(** Lines 283-292. *)
Definition input_construction (by_id : gmap string FlowNode)
    (outputs : gmap string string) (input_nodes : list string)
    : outcome string :=
  match input_nodes with
  | [] => Return "prompt"
  | _ =>
      selected_fields ← collect_selected by_id outputs input_nodes;
      match selected_fields with
      | [] => Return "prompt"
      | _ =>
          Return ("prompt + '\n\nContext: ' + ' '.join([str(x) for x in ["
                    +:+ join ", " selected_fields +:+ "]])")
      end
  end.

(** The system prompt inside the f-string of line 308. *)
Definition system_prompt_text (c : AgentConfig) : outcome string :=
  prompts ← getattr c "systemPrompts";
  if py_bool prompts then
    prompts' ← getattr c "systemPrompts";
    first ← py_first prompts';
    Return (py_str first)
  else Return EmptyString.

(** Lines 272-327: everything done for a node that is ready, up to the
    lines appended to the code. *)
Definition emit_node (by_id : gmap string FlowNode) (node : FlowNode)
    (input_nodes : list string) (st : gen_state) : outcome gen_state :=
  let c := node_config node in
  let var_name := "result_" +:+ node_id node in
  let outputs := <[node_id node := var_name]> (node_outputs st) in
  model_setup ← dict_getitem model_setup_table (model_provider c);
  input ← input_construction by_id outputs input_nodes;
  let result_type :=
    match output_structure c with
    | Some o => structure_name o
    | None => "str"
    end in
  system_prompt ← system_prompt_text c;
  maxTokens ← getattr c "maxTokens";
  responseTokensLimit ← getattr c "responseTokensLimit";
  totalTokensLimit ← getattr c "totalTokensLimit";
  Return {|
    code := code st ++
      [ "    # " +:+ label c;
        "    model = " +:+ model_setup +:+ "(";
        "        '" +:+ model_name c +:+ "',";
        "        api_key=credentials['" +:+ model_provider c +:+ "_api_key']";
        "    )";
        EmptyString;
        "    agent = Agent(";
        "        model,";
        "        system_prompt='" +:+ system_prompt +:+ "',";
        "        result_type=" +:+ result_type;
        "    )";
        EmptyString;
        "    " +:+ var_name +:+ " = agent.run_sync(";
        "        " +:+ input +:+ ",";
        "        model_settings={";
        "            'temperature': " +:+ py_str (PFloat (temperature c))
          +:+ ",";
        "            'max_tokens': " +:+ py_str maxTokens +:+ ",";
        "            'response_tokens_limit': " +:+ py_str responseTokensLimit
          +:+ ",";
        "            'total_tokens_limit': " +:+ py_str totalTokensLimit;
        "        }";
        "    ).data";
        EmptyString;
        "    results.append({";
        "        'node_id': '" +:+ node_id node +:+ "',";
        "        'result': " +:+ var_name;
        "    })";
        EmptyString ];
    node_outputs := outputs;
    processed_nodes := processed_nodes st
  |}.

Definition generate_python_code (fuel : nat) (nodes : list FlowNode)
    (edges : list FlowEdge) : outcome string :=
  let code0 := header ++ (nodes ≫= output_model_lines) ++ run_flow_head in
  st ← process (emit_node (nodes_by_id nodes)) fuel nodes edges
         {| code := code0; node_outputs := ∅; processed_nodes := ∅ |};
  Return (join newline (code st ++ footer)).

(** The endpoint [/api/generate-code] (lines 350-356). *)
Definition generate_code (fuel : nat) (nodes : list FlowNode)
    (edges : list FlowEdge) : outcome (list (string * string)) :=
  match generate_python_code fuel nodes edges with
  | Return text => Return [("code", text)]
  | Raise (Interrupt cls) => Raise (Interrupt cls)
  | Raise e => Raise (HTTPException 500 (str_exn e))
  | OutOfFuel => OutOfFuel
  end.

(** *** [create_output_model] (lines 88-107) *)

Definition field_types : list (string * PyType) :=
  [ ("str", TStr); ("int", TInt); ("float", TFloat); ("bool", TBool);
    ("list[str]", TListStr); ("dict", TDictStrAny) ].

(** [field_types.get(field.type, Any)] *)
Definition field_type_of (f : OutputField) : PyType :=
  default TAny (dict_get field_types (field_type f)).

(** The value of one entry of the comprehension of lines 99-105: the type
    and [field.description or ''] *)
Definition field_entry (f : OutputField) : PyType * string :=
  (field_type_of f, default EmptyString (field_description f)).

Definition add_field (d : list (string * (PyType * string)))
    (f : OutputField) : list (string * (PyType * string)) :=
  dict_set d (field_name f) (field_entry f).

(** The dictionary built by the comprehension. *)
Definition output_fields (o : OutputStructure)
    : list (string * (PyType * string)) :=
  foldl add_field [] (structure_fields o).

Definition create_output_model (o : OutputStructure) : outcome ModelClass :=
  create_model (structure_name o) (output_fields o).

(** *** [run_agent] (lines 109-201) *)

(** [if not api_key: raise HTTPException(400, ...)] *)
Definition require_key (key : option string) (missing : string)
    : outcome string :=
  match key with
  | Some k =>
      if decide (k = EmptyString) then Raise (HTTPException 400 missing)
      else Return k
  | None => Raise (HTTPException 400 missing)
  end.

(** Lines 120-142: the model class and the API key of the provider. *)
Definition select_model (r : AgentRunRequest) : outcome (string * string) :=
  let provider := model_provider (config r) in
  if decide (provider = "openai") then
    k ← require_key (openai_api_key (credentials r)) "Missing OpenAI API key";
    Return ("OpenAIModel", k)
  else if decide (provider = "anthropic") then
    k ← require_key (anthropic_api_key (credentials r))
          "Missing Anthropic API key";
    Return ("AnthropicModel", k)
  else if decide (provider = "google-gla") then
    k ← require_key (google_api_key (credentials r)) "Missing Google API key";
    Return ("GeminiModel", k)
  else
    Raise (HTTPException 400 ("Unsupported model provider: " +:+ provider)).

(** Lines 172-189: the response built from the data of the run. *)
Definition classify_result (r : run_result) : AgentRunResponse :=
  match data r with
  | DataStr s =>
      {| result := s; structured_output := None;
         usage := usage_of r; error := None |}
  | DataObject shown attrs =>
      {| result := shown; structured_output := Some attrs;
         usage := usage_of r; error := None |}
  | _ =>
      {| result := "Error: Unexpected result type"; structured_output := None;
         usage := usage_of r; error := Some "UnexpectedResultType" |}
  end.

(** The body of the [try] (lines 112-192). *)
Definition run_agent_body (r : AgentRunRequest) : outcome AgentRunResponse :=
  '(model, api_key) ← select_model r;
  result_type ← (match output_structure (config r) with
                 | Some o => cls ← create_output_model o; Return (Some cls)
                 | None => Return None
                 end);
  let system_prompt :=
    match system_prompts (config r) with
    | p :: _ => p
    | [] => EmptyString
    end in
  res ← agent_run model (model_name (config r)) api_key system_prompt
          result_type (prompt r) (settings_of r);
  Return (classify_result res).

(** [run_agent] with its two handlers (lines 194-201): what the body raises
    leaves the endpoint as an [HTTPException], unless it is no [Exception]:
    then neither handler catches it. *)
Definition run_agent (r : AgentRunRequest) : outcome AgentRunResponse :=
  match run_agent_body r with
  | Return response => Return response
  | Raise (ValidationError msg) => Raise (HTTPException 422 msg)
  | Raise (Interrupt cls) => Raise (Interrupt cls)
  | Raise e => Raise (HTTPException 500 (str_exn e))
  | OutOfFuel => OutOfFuel
  end.

End Server.

(** ** Notions used to state the properties *)

(** A node that the first scan finds ready: no edge targets it. *)
Definition is_source (edges : list FlowEdge) (node : FlowNode) : bool :=
  bool_decide (get_input_nodes edges (node_id node) = []).

Definition first_source (edges : list FlowEdge) (nodes : list FlowNode)
  : option FlowNode :=
  List.find (is_source edges) nodes.

(** The exception of [emit_node] on a node without inputs. *)
Definition failure_of (node : FlowNode) : exn :=
  match dict_get model_setup_table (model_provider (node_config node)) with
  | Some _ => AttributeError "AgentConfig" "systemPrompts"
  | None => KeyError (model_provider (node_config node))
  end.

(** [a] feeds [b]: some edge goes from [a] to [b], both being node ids. *)
Definition feeds (nodes : list FlowNode) (edges : list FlowEdge)
    (a b : string) : Prop :=
  a ∈ node_id <$> nodes ∧ b ∈ node_id <$> nodes ∧
  ∃ e, e ∈ edges ∧ source e = a ∧ target e = b.

Definition has_cycle (nodes : list FlowNode) (edges : list FlowEdge) : Prop :=
  ∃ a, tc (feeds nodes edges) a a.

Definition acyclic (nodes : list FlowNode) (edges : list FlowEdge) : Prop :=
  ¬ has_cycle nodes edges.

(** Every edge goes from a node to a node. *)
Definition edges_closed (nodes : list FlowNode) (edges : list FlowEdge)
  : Prop :=
  ∀ e, e ∈ edges →
    source e ∈ node_id <$> nodes ∧ target e ∈ node_id <$> nodes.

(** The outcome without its value: returned, raised (what), or cut off. *)
Definition verdict {A} (m : outcome A) : outcome unit :=
  match m with
  | Return _ => Return ()
  | Raise e => Raise e
  | OutOfFuel => OutOfFuel
  end.

(** A provider that has no entry in the table of line 276. *)
Definition unsupported_provider (node : FlowNode) : Prop :=
  dict_get model_setup_table (model_provider (node_config node)) = None.

(** The names of the fields that the output structure of a node declares. *)
Definition declared_fields (c : AgentConfig) : list string :=
  match output_structure c with
  | Some o => field_name <$> structure_fields o
  | None => []
  end.

(** A node selects an output field that its own structure does not declare. *)
Definition dangling_selection (node : FlowNode) : Prop :=
  ∃ l x, selected_output_fields (node_config node) = Some l ∧
         x ∈ l ∧ x ∉ declared_fields (node_config node).

(** The same node with other selected output fields. *)
Definition with_selection (sel : FlowNode → option (list string))
    (node : FlowNode) : FlowNode :=
  let c := node_config node in
  {| node_id := node_id node;
     node_type := node_type node;
     node_config :=
       {| label := label c;
          model_provider := model_provider c;
          model_name := model_name c;
          temperature := temperature c;
          max_tokens := max_tokens c;
          system_prompts := system_prompts c;
          response_tokens_limit := response_tokens_limit c;
          total_tokens_limit := total_tokens_limit c;
          output_structure := output_structure c;
          selected_output_fields := sel node |};
     node_position := node_position node |}.

(** ** The order in which the loop takes the nodes *)

(** An emission that does nothing but record the id of the node, as
    [emit_node] does with [node_outputs] and with the lines it appends. *)
Definition log_node (node : FlowNode) (input_nodes : list string)
    (st : gen_state) : outcome gen_state :=
  Return {| code := code st ++ [node_id node];
            node_outputs :=
              <[node_id node := "result_" +:+ node_id node]> (node_outputs st);
            processed_nodes := processed_nodes st |}.

(** The loop of lines 263-329 run with that emission: the ids of the nodes
    in the order in which the loop emits them when no emission raises. *)
Definition resolved_order (fuel : nat) (nodes : list FlowNode)
    (edges : list FlowEdge) : outcome (list string) :=
  st ← process log_node fuel nodes edges
         {| code := []; node_outputs := ∅; processed_nodes := ∅ |};
  Return (code st).

(** The test of lines 265-270: the node is not processed and all its inputs
    are. *)
Definition ready (edges : list FlowEdge) (st : gen_state) (node : FlowNode)
  : bool :=
  bool_decide (node_id node ∉ processed_nodes st)
  && forallb (λ n, bool_decide (n ∈ processed_nodes st))
       (get_input_nodes edges (node_id node)).

(** The state after [log_node] and line 329. *)
Definition take_node (node : FlowNode) (st : gen_state) : gen_state :=
  {| code := code st ++ [node_id node];
     node_outputs :=
       <[node_id node := "result_" +:+ node_id node]> (node_outputs st);
     processed_nodes := {[node_id node]} ∪ processed_nodes st |}.

(** [y] stands strictly before [x] in [l]. *)
Definition before (l : list string) (y x : string) : Prop :=
  ∃ pre post, l = pre ++ x :: post ∧ y ∈ pre.

(** The recorded order agrees with the processed set, has no repetition,
    holds node ids only, and has every input of a node before the node. *)
Record ordered (nodes : list FlowNode) (edges : list FlowEdge)
    (st : gen_state) : Prop := {
  ordered_set : ∀ x, x ∈ processed_nodes st ↔ x ∈ code st;
  ordered_nodup : NoDup (code st);
  ordered_nodes : ∀ x, x ∈ code st → x ∈ node_id <$> nodes;
  ordered_inputs :
    ∀ pre x post, code st = pre ++ x :: post →
      ∀ i, i ∈ get_input_nodes edges x → i ∈ pre
}.

(** ** Example graphs *)

Definition example_config (provider : string)
    (structure : option OutputStructure) (selected : option (list string))
  : AgentConfig :=
  {| label := "agent";
     model_provider := provider;
     model_name := "gpt-4o";
     temperature := 0.5%float;
     max_tokens := 1000;
     system_prompts := ["You are a helpful assistant."];
     response_tokens_limit := 1000;
     total_tokens_limit := 2000;
     output_structure := structure;
     selected_output_fields := selected |}.

Definition example_node (id provider : string)
    (structure : option OutputStructure) (selected : option (list string))
  : FlowNode :=
  {| node_id := id;
     node_type := "agent";
     node_config := example_config provider structure selected;
     node_position := [("x", 0%float); ("y", 0%float)] |}.

Definition example_edge (id src tgt : string) : FlowEdge :=
  {| edge_id := id; source := src; target := tgt |}.

Definition summary_structure : OutputStructure :=
  {| structure_name := "Summary";
     structure_fields :=
       [ {| field_name := "summary"; field_type := "str";
            field_description := None |} ] |}.

(** A plain node on a supported provider. *)
Definition plain (id : string) : FlowNode := example_node id "openai" None None.

(** A node that produces a summary and selects it for its successors. *)
Definition summarizer (id : string) : FlowNode :=
  example_node id "openai" (Some summary_structure) (Some ["summary"]).

(** A formatting of values for the examples; none of them comes to format
    a value. *)
Definition example_str (v : pyval) : string := type_name v.

(** A [create_model] that accepts every field list and gives back the name and
    the fields of the class. *)
Definition record_model (name : string)
    (fields : list (string * (PyType * string)))
  : outcome (string * list (string * (PyType * string))) :=
  Return (name, fields).

(** A type tag that [field_types] does not list. *)
Definition unrecognized_tag (f : OutputField) : Prop :=
  dict_get field_types (field_type f) = None.


(** An agent that answers with the prompt, in the type it is asked for. *)
Definition echo_agent {ModelClass : Type} (model name key system : string)
    (result_type : option ModelClass) (prompt : string)
    (settings : model_settings) : outcome run_result :=
  Return {| data :=
              match result_type with
              | None => DataStr prompt
              | Some _ =>
                  DataObject ("answer='" +:+ prompt +:+ "'")
                    [("answer", PStr prompt)]
              end;
            usage_of := None |}.

(** An agent whose awaited run is cancelled. *)
Definition cancelled_agent {ModelClass : Type} (model name key system : string)
    (result_type : option ModelClass) (prompt : string)
    (settings : model_settings) : outcome run_result :=
  Raise (Interrupt "CancelledError").

(** A request for a structured answer. *)
Definition structured_request : AgentRunRequest :=
  {| config := example_config "openai" (Some summary_structure) None;
     credentials := {| openai_api_key := Some "sk-test";
                       anthropic_api_key := None;
                       google_api_key := None |};
     prompt := "hello" |}.

(** An agent whose run hands back the given data whatever it is asked for,
    without usage; the examples use it where the agent is not reached or is
    asked for a string. *)
Definition fixed_agent (d : result_data) (model name key system : string)
    (result_type : option unit) (prompt : string) (settings : model_settings)
  : outcome run_result :=
  Return {| data := d; usage_of := None |}.

Definition example_request : AgentRunRequest :=
  {| config := example_config "openai" None None;
     credentials := {| openai_api_key := Some "sk-test";
                       anthropic_api_key := None;
                       google_api_key := None |};
     prompt := "hello" |}.


(** ** The loop as a schedule *)

(** What a turn of the [for] loop does with a node that is ready: the work
    for the node, then line 329. *)
Definition emit_and_mark
    (emit : FlowNode → list string → gen_state → outcome gen_state)
    (edges : list FlowEdge) (node : FlowNode) (st : gen_state)
  : outcome gen_state :=
  st' ← emit node (get_input_nodes edges (node_id node)) st;
  Return {| code := code st';
            node_outputs := node_outputs st';
            processed_nodes := {[node_id node]} ∪ processed_nodes st' |}.

(** The nodes of the given ids handled one after the other. *)
Fixpoint run_schedule
    (emit : FlowNode → list string → gen_state → outcome gen_state)
    (nodes : list FlowNode) (edges : list FlowEdge) (ids : list string)
    (st : gen_state) : outcome gen_state :=
  match ids with
  | [] => Return st
  | id :: rest =>
      match List.find (λ n, bool_decide (node_id n = id)) nodes with
      | Some node =>
          st' ← emit_and_mark emit edges node st;
          run_schedule emit nodes edges rest st'
      | None => run_schedule emit nodes edges rest st
      end
  end.

(** The work for a node leaves [processed_nodes] alone, as lines 272-327
    do. *)
Definition keeps_processed
    (emit : FlowNode → list string → gen_state → outcome gen_state) : Prop :=
  ∀ node input_nodes st st',
    emit node input_nodes st = Return st' →
    processed_nodes st' = processed_nodes st.

(** The work for a node always succeeds. *)
Definition always_returns
    (emit : FlowNode → list string → gen_state → outcome gen_state) : Prop :=
  ∀ node input_nodes st, ∃ st', emit node input_nodes st = Return st'.

(** What the loop keeps true of [processed_nodes], whatever the work for a
    node does: it holds ids of nodes only, with every input of an id it
    holds, and no id that lies on a cycle. *)
Record sound (nodes : list FlowNode) (edges : list FlowEdge)
    (st : gen_state) : Prop := {
  sound_nodes : ∀ x, x ∈ processed_nodes st → x ∈ node_id <$> nodes;
  sound_inputs :
    ∀ x i, x ∈ processed_nodes st → i ∈ get_input_nodes edges x →
           i ∈ processed_nodes st;
  sound_acyclic :
    ∀ x, x ∈ processed_nodes st → ¬ tc (feeds nodes edges) x x
}.

(** ** Requests of [run_agent] *)

(** The credential that lines 120-137 read for a provider. *)
Definition used_key (provider : string) (c : APICredentials) : option string :=
  if decide (provider = "openai") then openai_api_key c
  else if decide (provider = "anthropic") then anthropic_api_key c
  else if decide (provider = "google-gla") then google_api_key c
  else None.

(** The detail of the exception raised for a missing key. *)
Definition missing_key_detail (provider : string) : string :=
  if decide (provider = "openai") then "Missing OpenAI API key"
  else if decide (provider = "anthropic") then "Missing Anthropic API key"
  else "Missing Google API key".

Definition supported_provider (provider : string) : Prop :=
  provider ∈ ["openai"; "anthropic"; "google-gla"].

(** The same request with other credentials. *)
Definition with_credentials (r : AgentRunRequest) (c : APICredentials)
  : AgentRunRequest :=
  {| config := config r; credentials := c; prompt := prompt r |}.

(** The same request with other system prompts. *)
Definition with_system_prompts (r : AgentRunRequest) (prompts : list string)
  : AgentRunRequest :=
  let c := config r in
  {| config :=
       {| label := label c;
          model_provider := model_provider c;
          model_name := model_name c;
          temperature := temperature c;
          max_tokens := max_tokens c;
          system_prompts := prompts;
          response_tokens_limit := response_tokens_limit c;
          total_tokens_limit := total_tokens_limit c;
          output_structure := output_structure c;
          selected_output_fields := selected_output_fields c |};
     credentials := credentials r;
     prompt := prompt r |}.

(** The exception of [emit_node], by the provider and the first input. *)
Definition emit_failure (by_id : gmap string FlowNode) (node : FlowNode)
    (input_nodes : list string) : exn :=
  match dict_get model_setup_table (model_provider (node_config node)) with
  | None => KeyError (model_provider (node_config node))
  | Some _ =>
      match input_nodes with
      | [] => AttributeError "AgentConfig" "systemPrompts"
      | input_id :: _ =>
          match by_id !! input_id with
          | Some _ => AttributeError "AgentConfig" "selectedOutputFields"
          | None => KeyError input_id
          end
      end
  end.

(** Requests for the examples: a provider outside the table, and anthropic
    with the key of another provider only. *)
Definition unknown_request : AgentRunRequest :=
  {| config := example_config "mistral" None None;
     credentials := {| openai_api_key := Some "sk-test";
                       anthropic_api_key := None;
                       google_api_key := None |};
     prompt := "hello" |}.

Definition keyless_request : AgentRunRequest :=
  {| config := example_config "anthropic" None None;
     credentials := {| openai_api_key := Some "sk-test";
                       anthropic_api_key := Some EmptyString;
                       google_api_key := Some "g-test" |};
     prompt := "hello" |}.

(** ** Attribute access *)

Lemma getattr_systemPrompts c :
  getattr c "systemPrompts"
  = Raise (AttributeError "AgentConfig" "systemPrompts").
Proof. reflexivity. Qed.

Lemma getattr_selectedOutputFields c :
  getattr c "selectedOutputFields"
  = Raise (AttributeError "AgentConfig" "selectedOutputFields").
Proof. reflexivity. Qed.

Lemma getattr_system_prompts c :
  getattr c "system_prompts" = Return (PList (PStr <$> system_prompts c)).
Proof. reflexivity. Qed.

(** A name is readable exactly when the class declares it. *)
Lemma getattr_declared c attr :
  returned (getattr c attr) = true ↔
  attr ∈ [ "label"; "model_provider"; "model_name"; "temperature";
           "max_tokens"; "system_prompts"; "response_tokens_limit";
           "total_tokens_limit"; "output_structure";
           "selected_output_fields" ].
Proof.
  unfold getattr, AgentConfig_fields. cbn [dict_get].
  repeat (case_decide;
          [subst attr; split; [intros _; set_solver | reflexivity] |]).
  cbn. split; [discriminate |].
  intros Hin.
  repeat (apply elem_of_cons in Hin as [Heq | Hin]; [congruence |]).
  by apply elem_of_nil in Hin.
Qed.

(** ** The work done for one node *)

Section Emission.

Variable py_str : pyval → string.
Variable by_id : gmap string FlowNode.

Lemma system_prompt_text_raises c :
  system_prompt_text py_str c
  = Raise (AttributeError "AgentConfig" "systemPrompts").
Proof. reflexivity. Qed.

(** With inputs, building the input expression stops at the first input. *)
Lemma collect_selected_raises outputs input_id rest :
  is_Some (by_id !! input_id) →
  collect_selected py_str by_id outputs (input_id :: rest)
  = Raise (AttributeError "AgentConfig" "selectedOutputFields").
Proof. intros [n Hn]. cbn. rewrite Hn. reflexivity. Qed.

Lemma input_construction_nil outputs :
  input_construction py_str by_id outputs [] = Return "prompt".
Proof. reflexivity. Qed.

(** [emit_node] never hands a state back. *)
Lemma emit_node_not_returned node input_nodes st :
  returned (emit_node py_str by_id node input_nodes st) = false.
Proof.
  unfold emit_node.
  destruct (dict_getitem _ _) as [setup | e |]; cbn; try reflexivity.
  destruct (input_construction _ _ _ _) as [input | e |]; reflexivity.
Qed.

(** On a node without inputs it raises, and what it raises is decided by the
    provider alone. *)
Lemma emit_node_source node st :
  emit_node py_str by_id node [] st = Raise (failure_of node).
Proof.
  unfold emit_node, failure_of, dict_getitem.
  destruct (dict_get _ _); reflexivity.
Qed.

End Emission.

(** ** The loop of [generate_python_code] *)

Section Starved.

Variable py_str : pyval → string.
Variable by_id : gmap string FlowNode.
Variable edges : list FlowEdge.

(** While nothing is processed, a turn of the [for] loop either skips the
    node or raises on it. *)
Lemma visit_unprocessed node st :
  processed_nodes st = ∅ →
  visit (emit_node py_str by_id) edges node st
  = if is_source edges node then Raise (failure_of node) else Return st.
Proof.
  intros Hnone. unfold visit, is_source. rewrite Hnone.
  case_decide as Hin; [set_solver |].
  destruct (get_input_nodes edges (node_id node)) as [| i ins] eqn:Hins.
  - cbn. rewrite emit_node_source. reflexivity.
  - cbn. rewrite bool_decide_eq_false_2 by set_solver. reflexivity.
Qed.

Lemma scan_unprocessed todo st :
  processed_nodes st = ∅ →
  scan (emit_node py_str by_id) edges todo st
  = match first_source edges todo with
    | Some n => Raise (failure_of n)
    | None => Return st
    end.
Proof.
  intros Hnone. unfold first_source.
  induction todo as [| node rest IH]; [reflexivity |].
  cbn. rewrite visit_unprocessed by done.
  destruct (is_source edges node); [reflexivity |]. cbn. apply IH.
Qed.

Lemma process_unprocessed fuel nodes st :
  processed_nodes st = ∅ → nodes ≠ [] →
  process (emit_node py_str by_id) fuel nodes edges st
  = match fuel, first_source edges nodes with
    | S _, Some n => Raise (failure_of n)
    | _, _ => OutOfFuel
    end.
Proof.
  intros Hnone Hnodes.
  assert (Hlt : (size (processed_nodes st) < length nodes)%nat).
  { rewrite Hnone, size_empty. destruct nodes; [done | cbn; lia]. }
  induction fuel as [| fuel IH]; cbn.
  - rewrite decide_True by done. reflexivity.
  - rewrite decide_True by done. rewrite scan_unprocessed by done.
    destruct (first_source edges nodes) as [n |] eqn:Hfirst; [reflexivity |].
    cbn. rewrite IH. by destruct fuel.
Qed.

End Starved.

(** Whatever the emission, a loop that has nothing left to do returns at
    once. *)
Lemma process_done emit fuel nodes edges st :
  ¬ (size (processed_nodes st) < length nodes)%nat →
  process emit fuel nodes edges st = Return st.
Proof. intros Hdone. destruct fuel; cbn; by rewrite decide_False. Qed.

(** The outcome of [generate_python_code] on every input. *)
Lemma generate_python_code_outcome py_str fuel nodes edges :
  generate_python_code py_str fuel nodes edges
  = match nodes with
    | [] => Return (join newline (header ++ run_flow_head ++ footer))
    | _ :: _ =>
        match fuel, first_source edges nodes with
        | S _, Some n => Raise (failure_of n)
        | _, _ => OutOfFuel
        end
    end.
Proof.
  unfold generate_python_code. destruct nodes as [| node rest].
  - rewrite process_done by (cbn; lia). reflexivity.
  - rewrite process_unprocessed by done.
    destruct fuel; [reflexivity |].
    destruct (first_source edges (node :: rest)); reflexivity.
Qed.

(** ** Graphs with a cycle *)

Lemma has_cycle_nonempty nodes edges : has_cycle nodes edges → nodes ≠ [].
Proof.
  intros [a Hcycle] ->.
  assert (Hfirst : ∀ x y, tc (feeds [] edges) x y → False).
  { intros x y Hxy. destruct Hxy as [x y Hstep | x y z Hstep _];
      destruct Hstep as [Hx _]; by apply elem_of_nil in Hx. }
  eauto.
Qed.

(** When every node is the target of some edge, the first scan finds no node
    ready. *)
Lemma first_source_none edges nodes :
  (∀ n, n ∈ nodes → get_input_nodes edges (node_id n) ≠ []) →
  first_source edges nodes = None.
Proof.
  intros Hfed. unfold first_source.
  induction nodes as [| node rest IH]; [reflexivity |].
  cbn. unfold is_source at 1.
  rewrite bool_decide_eq_false_2 by (apply Hfed; left).
  apply IH. intros n Hn. apply Hfed. by right.
Qed.

(** C1, as the code has it: on a graph with a cycle among its nodes
    [generate_python_code] never returns and never raises an exception of a
    kind CycleDetected; and when every node is the target of some edge (a
    self-loop on the only node, a cycle through all nodes) no scan appends
    anything and the loop does not end, whatever the number of scans. *)
Theorem cyclic_graph_never_completes py_str nodes edges :
  has_cycle nodes edges →
  (∀ fuel,
     match generate_python_code py_str fuel nodes edges with
     | Return _ => False
     | Raise e => exn_kind e ≠ "CycleDetected"
     | OutOfFuel => True
     end) ∧
  ((∀ n, n ∈ nodes → get_input_nodes edges (node_id n) ≠ []) →
   ∀ fuel, generate_python_code py_str fuel nodes edges = OutOfFuel).
Proof.
  intros Hcycle. apply has_cycle_nonempty in Hcycle.
  destruct nodes as [| node rest]; [done |]. split.
  - intros fuel. rewrite generate_python_code_outcome.
    destruct fuel; [done |].
    destruct (first_source _ _) as [n |]; [| done].
    unfold failure_of. by destruct (dict_get _ _).
  - intros Hfed fuel. rewrite generate_python_code_outcome.
    rewrite first_source_none by done. by destruct fuel.
Qed.

(** The self-loop on a single node. *)
Lemma self_loop_cycle :
  has_cycle [plain "a"] [example_edge "e1" "a" "a"].
Proof.
  exists "a". apply tc_once. repeat split; [set_solver .. |].
  exists (example_edge "e1" "a" "a"). repeat split. set_solver.
Qed.

Lemma cyclic_graph_never_completes_witness :
  has_cycle [plain "a"] [example_edge "e1" "a" "a"] ∧
  ∀ fuel,
    generate_python_code example_str fuel [plain "a"]
      [example_edge "e1" "a" "a"] = OutOfFuel.
Proof.
  split; [exact self_loop_cycle |].
  apply (cyclic_graph_never_completes example_str [plain "a"]
           [example_edge "e1" "a" "a"] self_loop_cycle).
  intros n Hn. apply list_elem_of_singleton in Hn as ->.
  vm_compute. discriminate.
Defined.

(** C1 as it is stated fails: on the self-loop no number of scans brings the
    loop to an end, so nothing is reported at all. *)
Lemma cycle_detected_counterexample :
  ¬ (∀ py_str nodes edges,
       has_cycle nodes edges →
       ∃ fuel,
         completed (generate_python_code py_str fuel nodes edges) = true).
Proof.
  intros Hclaim.
  destruct (Hclaim example_str _ _ self_loop_cycle) as (fuel & Hrun).
  rewrite generate_python_code_outcome in Hrun.
  destruct fuel; discriminate Hrun.
Qed.

(** ** Non-empty graphs *)

(** C10, as the code has it: on a non-empty node list [generate_python_code]
    never returns source text. Given at least one scan, it raises at the first
    node in declaration order that no edge targets ([KeyError] on a provider
    outside the table, otherwise [AttributeError] on [systemPrompts]), which
    the endpoint turns into a 500 response; when every node is the target of
    some edge it raises nothing and the loop does not end. *)
Theorem nonempty_graph_never_generates py_str str_exn fuel nodes edges :
  nodes ≠ [] →
  generate_python_code py_str fuel nodes edges
  = match fuel, first_source edges nodes with
    | S _, Some n => Raise (failure_of n)
    | _, _ => OutOfFuel
    end
  ∧ returned (generate_code py_str str_exn fuel nodes edges) = false.
Proof.
  intros Hnodes. unfold generate_code.
  rewrite generate_python_code_outcome.
  destruct nodes as [| node rest]; [done |]. split; [reflexivity |].
  destruct fuel; [reflexivity |].
  destruct (first_source _ _) as [n |]; [| reflexivity].
  by destruct (failure_of n).
Qed.

Lemma nonempty_graph_never_generates_witness :
  generate_python_code example_str 1 [plain "a"] []
  = Raise (AttributeError "AgentConfig" "systemPrompts")
  ∧ returned (generate_code example_str exn_kind 1 [plain "a"] []) = false.
Proof.
  apply (nonempty_graph_never_generates example_str exn_kind 1 [plain "a"] []).
  discriminate.
Defined.

(** C10 as it is stated fails: a non-empty graph on which no exception is
    ever raised. *)
Lemma always_raises_counterexample :
  ¬ (∀ py_str nodes edges,
       nodes ≠ [] →
       ∃ fuel e, generate_python_code py_str fuel nodes edges = Raise e).
Proof.
  intros Hclaim.
  destruct (Hclaim example_str [plain "a"] [example_edge "e1" "a" "a"])
    as (fuel & e & Hrun); [discriminate |].
  rewrite generate_python_code_outcome in Hrun.
  destruct fuel; discriminate Hrun.
Qed.

(** ** Acyclic graphs *)

(** The chain a -> b has no cycle and all its edges join nodes. *)
Lemma chain_acyclic :
  acyclic [plain "a"; plain "b"] [example_edge "e1" "a" "b"]
  ∧ edges_closed [plain "a"; plain "b"] [example_edge "e1" "a" "b"].
Proof.
  split.
  - assert (Hstep : ∀ x y,
      feeds [plain "a"; plain "b"] [example_edge "e1" "a" "b"] x y →
      x = "a" ∧ y = "b").
    { intros x y (_ & _ & e & He & <- & <-).
      apply list_elem_of_singleton in He as ->. done. }
    assert (Hpath : ∀ x y,
      tc (feeds [plain "a"; plain "b"] [example_edge "e1" "a" "b"]) x y →
      x = "a" ∧ y = "b").
    { intros x y Hxy. induction Hxy as [x y H1 | x y z H1 _ [IHy IHz]].
      - by apply Hstep.
      - apply Hstep in H1 as [_ ->]. discriminate IHy. }
    intros [a Ha]. apply Hpath in Ha as [-> Hb]. discriminate Hb.
  - intros e He. apply list_elem_of_singleton in He as ->.
    split; set_solver.
Qed.

(** C2 at the acyclic chain a -> b: instead of the order [a; b] the loop
    raises at the first node it finds ready. *)
Theorem acyclic_chain_raises py_str fuel :
  acyclic [plain "a"; plain "b"] [example_edge "e1" "a" "b"]
  ∧ edges_closed [plain "a"; plain "b"] [example_edge "e1" "a" "b"]
  ∧ generate_python_code py_str (S fuel) [plain "a"; plain "b"]
      [example_edge "e1" "a" "b"]
    = Raise (AttributeError "AgentConfig" "systemPrompts").
Proof.
  destruct chain_acyclic as [Hacyclic Hclosed].
  split; [done |]. split; [done |].
  by rewrite generate_python_code_outcome.
Qed.

(** C3 at two nodes without inputs declared as [a; b]: neither is emitted,
    the loop raises at [a]. *)
Theorem two_sources_raise py_str fuel :
  get_input_nodes [] "a" = [] ∧ get_input_nodes [] "b" = []
  ∧ generate_python_code py_str (S fuel) [plain "a"; plain "b"] []
    = Raise (AttributeError "AgentConfig" "systemPrompts").
Proof.
  split; [reflexivity |]. split; [reflexivity |].
  by rewrite generate_python_code_outcome.
Qed.

(** ** The input expression of a node with inputs *)

(** C6 at the node c with inputs [a; b], both selecting their field
    [summary]: the whole generation raises at [a], and the input expression
    of [c], taken with [a] and [b] already emitted, raises on the first
    input; with no inputs the expression is the bare prompt. *)
Theorem context_of_two_inputs_raises py_str fuel :
  let nodes := [summarizer "a"; summarizer "b"; plain "c"] in
  let edges := [example_edge "e1" "a" "c"; example_edge "e2" "b" "c"] in
  get_input_nodes edges "c" = ["a"; "b"]
  ∧ generate_python_code py_str (S fuel) nodes edges
    = Raise (AttributeError "AgentConfig" "systemPrompts")
  ∧ input_construction py_str (nodes_by_id nodes)
      (<["c" := "result_c"]> (<["b" := "result_b"]> {["a" := "result_a"]}))
      (get_input_nodes edges "c")
    = Raise (AttributeError "AgentConfig" "selectedOutputFields")
  ∧ input_construction py_str (nodes_by_id nodes) ∅ [] = Return "prompt".
Proof.
  intros nodes edges.
  split; [reflexivity |]. split; [by rewrite generate_python_code_outcome |].
  split; [| reflexivity].
  change (get_input_nodes edges "c") with ["a"; "b"].
  unfold input_construction.
  rewrite collect_selected_raises; [reflexivity |].
  exists (summarizer "a"). by vm_compute.
Qed.

(** ** Selected output fields *)

Lemma first_source_with_selection sel edges nodes :
  first_source edges (with_selection sel <$> nodes)
  = with_selection sel <$> first_source edges nodes.
Proof.
  unfold first_source. induction nodes as [| node rest IH]; [reflexivity |].
  cbn. change (is_source edges (with_selection sel node))
    with (is_source edges node).
  destruct (is_source edges node); [reflexivity | apply IH].
Qed.

(** C5, as the code has it: the selected output fields of the nodes have no
    part in whether [generate_python_code] returns, raises (and what) or
    does not end, so a selection that names an undeclared field changes
    nothing; and no exception it raises is of a kind InvalidFieldReference. *)
Theorem selection_is_never_checked py_str fuel nodes edges sel :
  verdict
    (generate_python_code py_str fuel (with_selection sel <$> nodes) edges)
  = verdict (generate_python_code py_str fuel nodes edges)
  ∧ ∀ e, generate_python_code py_str fuel nodes edges = Raise e →
         exn_kind e ≠ "InvalidFieldReference".
Proof.
  rewrite !generate_python_code_outcome. split.
  - destruct nodes as [| node rest]; [reflexivity |].
    change (with_selection sel <$> node :: rest)
      with (with_selection sel node :: (with_selection sel <$> rest)).
    change (with_selection sel node :: (with_selection sel <$> rest))
      with (with_selection sel <$> node :: rest) at 2.
    rewrite first_source_with_selection.
    destruct fuel; [reflexivity |].
    destruct (first_source edges (node :: rest)); reflexivity.
  - intros e. destruct nodes as [| node rest]; [discriminate |].
    destruct fuel; [discriminate |].
    destruct (first_source _ _) as [n |]; [| discriminate].
    intros [= <-]. unfold failure_of. by destruct (dict_get _ _).
Qed.

(** C5 as it is stated fails: a node selects the field [x], which its
    structure does not declare, and the only failure is the one every
    non-empty graph meets. *)
Lemma invalid_field_reference_counterexample :
  ¬ (∀ py_str nodes edges,
       (∃ n, n ∈ nodes ∧ dangling_selection n) →
       ∃ fuel e, generate_python_code py_str fuel nodes edges = Raise e
                 ∧ exn_kind e = "InvalidFieldReference").
Proof.
  intros Hclaim.
  destruct (Hclaim example_str
              [example_node "a" "openai" (Some summary_structure) (Some ["x"])]
              [])
    as (fuel & e & Hrun & Hkind).
  - eexists. split; [left |]. exists ["x"], "x".
    split; [reflexivity |]. split; [left |].
    intros Hin. apply list_elem_of_singleton in Hin. discriminate Hin.
  - rewrite generate_python_code_outcome in Hrun.
    destruct fuel; [discriminate |]. cbn in Hrun.
    injection Hrun as Hexn. subst e. discriminate Hkind.
Qed.

(** ** Providers *)

(** C7, as the code has it: a provider outside the table is met only when
    the loop emits its node, and there it raises [KeyError] on the provider
    name before anything else is done for the node; so the generation fails
    that way when the node is the first in declaration order that no edge
    targets. *)
Theorem unsupported_provider_at_emission py_str node :
  unsupported_provider node →
  (∀ by_id input_nodes st,
     emit_node py_str by_id node input_nodes st
     = Raise (KeyError (model_provider (node_config node))))
  ∧ (∀ fuel nodes edges,
       first_source edges nodes = Some node →
       generate_python_code py_str (S fuel) nodes edges
       = Raise (KeyError (model_provider (node_config node)))).
Proof.
  unfold unsupported_provider. intros Hnone. split.
  - intros by_id input_nodes st. unfold emit_node, dict_getitem.
    by rewrite Hnone.
  - intros fuel nodes edges Hfirst. rewrite generate_python_code_outcome.
    destruct nodes as [| n rest]; [discriminate |].
    rewrite Hfirst. unfold failure_of. by rewrite Hnone.
Qed.

Lemma unsupported_provider_at_emission_witness :
  generate_python_code example_str 1
    [example_node "b" "unknown" None None; plain "a"] []
  = Raise (KeyError "unknown").
Proof.
  apply (unsupported_provider_at_emission example_str
           (example_node "b" "unknown" None None)); reflexivity.
Defined.

(** C7 as it is stated fails: the only node has an unknown provider and a
    self-loop, and no exception is ever raised. *)
Lemma unsupported_provider_counterexample :
  ¬ (∀ py_str nodes edges,
       (∃ n, n ∈ nodes ∧ unsupported_provider n) →
       ∃ fuel e, generate_python_code py_str fuel nodes edges = Raise e).
Proof.
  intros Hclaim.
  destruct (Hclaim example_str [example_node "b" "unknown" None None]
              [example_edge "e1" "b" "b"])
    as (fuel & e & Hrun).
  - eexists. split; [left | reflexivity].
  - rewrite generate_python_code_outcome in Hrun.
    destruct fuel; discriminate Hrun.
Qed.

(** ** Dictionaries *)

Lemma dict_get_set_eq {V} (d : list (string * V)) k v :
  dict_get (dict_set d k v) k = Some v.
Proof.
  induction d as [| [k' v'] d IH]; cbn.
  - by rewrite decide_True.
  - case_decide as Hk; cbn.
    + by rewrite decide_True.
    + by rewrite decide_False.
Qed.

Lemma dict_get_set_ne {V} (d : list (string * V)) k k' v :
  k ≠ k' → dict_get (dict_set d k v) k' = dict_get d k'.
Proof.
  intros Hne. induction d as [| [k0 v0] d IH]; cbn.
  - by rewrite decide_False.
  - case_decide as Hk; cbn.
    + subst k0. by rewrite !decide_False.
    + case_decide; [reflexivity | apply IH].
Qed.

(** ** The dynamic output model *)

Lemma fields_untouched fields d k :
  k ∉ field_name <$> fields →
  dict_get (foldl add_field d fields) k = dict_get d k.
Proof.
  revert d. induction fields as [| g rest IH]; intros d Hk; [reflexivity |].
  cbn in *. apply not_elem_of_cons in Hk as [Hne Hk].
  rewrite IH by done. unfold add_field. by rewrite dict_get_set_ne.
Qed.

Lemma fields_entry fields d f :
  f ∈ fields → NoDup (field_name <$> fields) →
  dict_get (foldl add_field d fields) (field_name f) = Some (field_entry f).
Proof.
  revert d. induction fields as [| g rest IH]; intros d Hin Hnodup.
  - by apply elem_of_nil in Hin.
  - cbn in *. apply NoDup_cons in Hnodup as [Hfresh Hnodup].
    apply elem_of_cons in Hin as [-> | Hin].
    + rewrite fields_untouched by done. unfold add_field.
      apply dict_get_set_eq.
    + by apply IH.
Qed.

(** C4, as the code has it: a field whose type tag is not listed in
    [field_types] gets the type [Any] in the dictionary handed to
    [create_model] (field names being distinct), and [create_output_model]
    itself adds no failure to those of [create_model]. *)
Theorem unrecognized_tag_becomes_Any (ModelClass : Type)
    (create_model :
       string → list (string * (PyType * string)) → outcome ModelClass)
    (o : OutputStructure) (f : OutputField) :
  f ∈ structure_fields o →
  NoDup (field_name <$> structure_fields o) →
  unrecognized_tag f →
  dict_get (output_fields o) (field_name f)
  = Some (TAny, default EmptyString (field_description f))
  ∧ create_output_model ModelClass create_model o
    = create_model (structure_name o) (output_fields o).
Proof.
  intros Hin Hnodup Htag. split; [| reflexivity].
  unfold output_fields. rewrite fields_entry by done.
  unfold field_entry, field_type_of. unfold unrecognized_tag in Htag.
  by rewrite Htag.
Qed.

Lemma unrecognized_tag_becomes_Any_witness :
  let f := {| field_name := "when"; field_type := "datetime";
              field_description := Some "a date" |} in
  let o := {| structure_name := "Event"; structure_fields := [f] |} in
  dict_get (output_fields o) "when" = Some (TAny, "a date")
  ∧ create_output_model _ record_model o
    = record_model "Event" (output_fields o).
Proof.
  intros f o.
  apply (unrecognized_tag_becomes_Any _ record_model o f).
  - left.
  - apply NoDup_singleton.
  - reflexivity.
Defined.

(** C4 as it is stated fails: a structure with the unknown tag [datetime]
    is accepted, its field typed [Any]. *)
Lemma unsupported_type_tag_counterexample :
  ¬ (∀ o f,
       f ∈ structure_fields o → unrecognized_tag f →
       ∃ e, create_output_model _ record_model o = Raise e).
Proof.
  intros Hclaim.
  destruct (Hclaim
              {| structure_name := "Event";
                 structure_fields :=
                   [ {| field_name := "when"; field_type := "datetime";
                        field_description := Some "a date" |} ] |}
              {| field_name := "when"; field_type := "datetime";
                 field_description := Some "a date" |})
    as (e & Hrun); [left | reflexivity |].
  discriminate Hrun.
Qed.

(** ** The response of [run_agent] *)

Section Classification.

Variable str_exn : exn → string.
Variable ModelClass : Type.
Variable create_model :
  string → list (string * (PyType * string)) → outcome ModelClass.
Variable agent_run :
  string → string → string → string → option ModelClass → string →
  model_settings → outcome run_result.

(** A response of [run_agent] is the classification of what the run of the
    agent returned. *)
Lemma run_agent_returns r response :
  run_agent str_exn ModelClass create_model agent_run r = Return response →
  ∃ res model key system result_type,
    agent_run model (model_name (config r)) key system result_type (prompt r)
      (settings_of r) = Return res
    ∧ response = classify_result res.
Proof.
  unfold run_agent, run_agent_body. intros Hrun.
  destruct (select_model r) as [[model key] | e |]; cbn in Hrun;
    [| destruct e; discriminate Hrun | discriminate Hrun].
  destruct (output_structure (config r)) as [o |]; cbn in Hrun.
  - destruct (create_output_model _ _ o) as [cls | e |]; cbn in Hrun;
      [| destruct e; discriminate Hrun | discriminate Hrun].
    destruct (agent_run _ _ _ _ _ _ _) as [res | e |] eqn:Hagent;
      cbn in Hrun; [| destruct e; discriminate Hrun | discriminate Hrun].
    exists res. do 4 eexists. split; [exact Hagent | congruence].
  - destruct (agent_run _ _ _ _ _ _ _) as [res | e |] eqn:Hagent;
      cbn in Hrun; [| destruct e; discriminate Hrun | discriminate Hrun].
    exists res. do 4 eexists. split; [exact Hagent | congruence].
Qed.


End Classification.



(** The two responses of the examples: the structured one, and the plain
    one. *)
Example run_agent_structured_example :
  run_agent exn_kind unit (λ _ _, Return ()) echo_agent structured_request
  = Return {| result := "answer='hello'";
              structured_output := Some [("answer", PStr "hello")];
              usage := None; error := None |}.
Proof. reflexivity. Qed.

Example run_agent_plain_example :
  run_agent exn_kind unit (λ _ _, Return ()) echo_agent example_request
  = Return {| result := "hello"; structured_output := None;
              usage := None; error := None |}.
Proof. reflexivity. Qed.

(** ** The order of the loop when every emission returns *)

Section Order.

Variable nodes : list FlowNode.
Variable edges : list FlowEdge.

Lemma ready_spec st node :
  ready edges st node = true ↔
  (node_id node ∉ processed_nodes st)
  ∧ (∀ i, i ∈ get_input_nodes edges (node_id node) → i ∈ processed_nodes st).
Proof.
  unfold ready. rewrite andb_true_iff, bool_decide_eq_true, forallb_forall.
  split; intros [Hnew Hins]; (split; [done |]).
  - intros i Hi. apply list_elem_of_In, Hins in Hi.
    by apply bool_decide_eq_true in Hi.
  - intros i Hi. apply bool_decide_eq_true, Hins. by apply list_elem_of_In.
Qed.

Lemma visit_log node st :
  visit log_node edges node st
  = Return (if ready edges st node then take_node node st else st).
Proof.
  unfold visit, ready. case_decide as Hin.
  - by rewrite bool_decide_eq_false_2 by auto.
  - rewrite bool_decide_eq_true_2 by done. cbn.
    by destruct (forallb _ _).
Qed.

Lemma take_node_ordered node st :
  node ∈ nodes → ordered nodes edges st → ready edges st node = true →
  ordered nodes edges (take_node node st).
Proof.
  intros Hnode [Hset Hnodup Hnodes Hinputs] [Hnew Hins]%ready_spec.
  split; cbn.
  - intros x. rewrite elem_of_union, elem_of_singleton, elem_of_app,
      list_elem_of_singleton, Hset. tauto.
  - apply NoDup_app. split; [done |]. split; [| apply NoDup_singleton].
    intros x Hx ->%list_elem_of_singleton. by apply Hnew, Hset.
  - intros x [Hx | ->%list_elem_of_singleton]%elem_of_app; [by apply Hnodes |].
    by apply list_elem_of_fmap_2.
  - intros pre x post Hcode i Hi.
    destruct post as [| y post _] using rev_ind.
    + apply app_inj_tail in Hcode as [<- <-]. by apply Hset, Hins.
    + rewrite app_comm_cons, app_assoc in Hcode.
      apply app_inj_tail in Hcode as [Hcode _]. by eapply Hinputs.
Qed.

(** A scan appends ids in the order of the list it runs over, and takes every
    node that was ready when the scan began. *)
Lemma scan_log todo st :
  (∀ n, n ∈ todo → n ∈ nodes) → ordered nodes edges st →
  ∃ st' picked,
    scan log_node edges todo st = Return st'
    ∧ ordered nodes edges st'
    ∧ code st' = code st ++ picked
    ∧ picked `sublist_of` (node_id <$> todo)
    ∧ ∀ n, n ∈ todo → ready edges st n = true → node_id n ∈ picked.
Proof.
  revert st. induction todo as [| node rest IH]; intros st Hsub Hst.
  - exists st, []. rewrite app_nil_r.
    split_and!; try done. intros n Hn. by apply elem_of_nil in Hn.
  - cbn [scan]. rewrite visit_log. cbn.
    assert (Hrest : ∀ n, n ∈ rest → n ∈ nodes) by (intros; apply Hsub; by right).
    destruct (ready edges st node) eqn:Hready.
    + destruct (IH (take_node node st)) as (st' & picked & Hscan & Hst' & Hcode & Hpicked & Hall);
        [done | apply take_node_ordered; [apply Hsub; left | done..] |].
      exists st', (node_id node :: picked). rewrite Hscan, Hcode. cbn.
      rewrite <- app_assoc. split_and!; try done.
      * by apply sublist_skip.
      * intros n [-> | Hn]%elem_of_cons Hn_ready; [left |].
        destruct (decide (node_id n = node_id node)) as [-> | Hne]; [left |].
        right. apply Hall; [done |].
        apply ready_spec in Hn_ready as [Hnew Hins]. apply ready_spec. cbn.
        split.
        { intros [Heq%elem_of_singleton | Hin]%elem_of_union; [done | by apply Hnew]. }
        intros i Hi. apply elem_of_union_r. by apply Hins.
    + destruct (IH st) as (st' & picked & Hscan & Hst' & Hcode & Hpicked & Hall);
        [done.. |].
      exists st', picked. rewrite Hscan. split_and!; try done.
      * by apply sublist_cons.
      * intros n [-> | Hn]%elem_of_cons Hn_ready; [congruence | by apply Hall].
Qed.

Lemma ordered_size st :
  ordered nodes edges st → size (processed_nodes st) = length (code st).
Proof.
  intros [Hset Hnodup _ _].
  assert (Heq : processed_nodes st = list_to_set (code st)).
  { apply set_eq. intros x. by rewrite elem_of_list_to_set. }
  rewrite Heq. by apply size_list_to_set.
Qed.

Lemma input_nodes_spec x i :
  i ∈ get_input_nodes edges x ↔ ∃ e, e ∈ edges ∧ source e = i ∧ target e = x.
Proof.
  unfold get_input_nodes. rewrite list_elem_of_fmap. split.
  - intros (e & -> & [Htarget He]%list_elem_of_filter). eauto.
  - intros (e & He & <- & <-). exists e. split; [done |].
    by apply list_elem_of_filter.
Qed.

Lemma feeds_first a b : tc (feeds nodes edges) a b → a ∈ node_id <$> nodes.
Proof. intros Hab. destruct Hab as [x y Hxy | x y z Hxy _]; by destruct Hxy. Qed.

Lemma tc_flip {A} (R : relation A) x y : tc (flip R) x y → tc R y x.
Proof.
  induction 1 as [x y Hxy | x y z Hxy _ IH]; [by apply tc_once |].
  eapply tc_r; [exact IH | exact Hxy].
Qed.

(** Without a cycle, the inputs of a node can be followed backwards only
    finitely often. *)
Lemma acyclic_inputs_wf : acyclic nodes edges → ∀ x, Acc (feeds nodes edges) x.
Proof.
  intros Hacyclic x.
  apply (tc_finite_sn (R := flip (feeds nodes edges))).
  - intros a Ha. apply Hacyclic. exists a. by apply tc_flip.
  - exists (node_id <$> nodes). intros y Hxy%tc_flip. by eapply feeds_first.
Qed.

(** While a node is not processed, some node is ready. *)
Lemma ready_exists st u :
  acyclic nodes edges → edges_closed nodes edges →
  u ∈ node_id <$> nodes → u ∉ processed_nodes st →
  ∃ n, n ∈ nodes ∧ ready edges st n = true.
Proof.
  intros Hacyclic Hclosed. induction (acyclic_inputs_wf Hacyclic u) as [u _ IH].
  intros Hu Hnew.
  destruct (decide (Forall (λ i, i ∈ processed_nodes st)
                      (get_input_nodes edges u))) as [Hall | Hsome].
  - apply list_elem_of_fmap in Hu as (n & -> & Hn). exists n. split; [done |].
    apply ready_spec. split; [done |]. by apply Forall_forall.
  - apply not_Forall_Exists in Hsome; [| apply _].
    apply Exists_exists in Hsome as (i & Hi & Hnot).
    pose proof Hi as (e & He & <- & <-)%input_nodes_spec.
    destruct (Hclosed e He) as [Hsource Htarget].
    apply (IH (source e)); [| done | done].
    split_and!; [done.. |]. by exists e.
Qed.

Lemma unprocessed_exists st :
  NoDup (node_id <$> nodes) → ordered nodes edges st →
  (size (processed_nodes st) < length nodes)%nat →
  ∃ u, u ∈ node_id <$> nodes ∧ u ∉ processed_nodes st.
Proof.
  intros Hnodup Hst Hlt.
  destruct (decide (Forall (λ u, u ∈ processed_nodes st) (node_id <$> nodes)))
    as [Hall | Hsome].
  - exfalso. rewrite (ordered_size _ Hst) in Hlt.
    assert (Hle : (length (node_id <$> nodes) ≤ length (code st))%nat).
    { apply submseteq_length, NoDup_submseteq; [done |].
      intros x Hx. apply (ordered_set _ _ _ Hst).
      by eapply Forall_forall in Hall. }
    rewrite length_fmap in Hle. lia.
  - apply not_Forall_Exists in Hsome; [| apply _].
    apply Exists_exists in Hsome as (u & Hu & Hnot). eauto.
Qed.

(** Given a scan for each node, the loop comes to its end with every node
    taken. *)
Lemma process_log fuel st :
  NoDup (node_id <$> nodes) → acyclic nodes edges → edges_closed nodes edges →
  ordered nodes edges st →
  (length nodes - size (processed_nodes st) ≤ fuel)%nat →
  ∃ st' more,
    process log_node fuel nodes edges st = Return st'
    ∧ ordered nodes edges st'
    ∧ (length nodes ≤ size (processed_nodes st'))%nat
    ∧ code st' = code st ++ more.
Proof.
  intros Hnodup Hacyclic Hclosed. revert st.
  induction fuel as [| fuel IH]; intros st Hst Hfuel; cbn [process].
  - rewrite decide_False by lia. exists st, []. rewrite app_nil_r.
    split_and!; [done.. | lia | done].
  - case_decide as Hlt.
    2: { exists st, []. rewrite app_nil_r. split_and!; [done.. | lia | done]. }
    destruct (scan_log nodes st (λ n Hn, Hn) Hst)
      as (st1 & picked & Hscan & Hst1 & Hcode & _ & Hall).
    rewrite Hscan. cbn.
    destruct (unprocessed_exists st Hnodup Hst Hlt) as (u & Hu & Hnew).
    destruct (ready_exists st u Hacyclic Hclosed Hu Hnew) as (n & Hn & Hready).
    specialize (Hall n Hn Hready).
    destruct (IH st1) as (st' & more & Hrun & Hst' & Hdone & Hcode'); [done | |].
    { rewrite (ordered_size _ Hst1), Hcode, length_app.
      rewrite (ordered_size _ Hst) in Hfuel.
      destruct picked; [by apply elem_of_nil in Hall | cbn; lia]. }
    exists st', (picked ++ more). rewrite Hrun, Hcode', Hcode, app_assoc.
    by split_and!.
Qed.

(** The first scan of a loop that still has nodes to take. *)
Lemma process_log_first fuel st :
  ordered nodes edges st →
  (size (processed_nodes st) < length nodes)%nat →
  ∃ st1 picked,
    process log_node (S fuel) nodes edges st
    = process log_node fuel nodes edges st1
    ∧ ordered nodes edges st1
    ∧ code st1 = code st ++ picked
    ∧ picked `sublist_of` (node_id <$> nodes)
    ∧ ∀ n, n ∈ nodes → ready edges st n = true → node_id n ∈ picked.
Proof.
  intros Hst Hlt.
  destruct (scan_log nodes st (λ n Hn, Hn) Hst)
    as (st1 & picked & Hscan & Hst1 & Hcode & Hpicked & Hall).
  exists st1, picked. cbn [process].
  rewrite decide_True by done. rewrite Hscan. by split_and!.
Qed.

(** A sublist of a list without repetition keeps the order of the list. *)
Lemma sublist_before picked ids a b :
  NoDup ids → picked `sublist_of` ids → before ids a b →
  a ∈ picked → b ∈ picked → before picked a b.
Proof.
  intros Hnodup Hsub (pre & post & -> & Ha) Ha_in Hb_in.
  apply NoDup_app in Hnodup as (_ & Hdisjoint & [Hb_post _]%NoDup_cons).
  apply sublist_app_r in Hsub as (k1 & k2 & -> & Hk1 & Hk2).
  assert (Hb_pre : b ∉ pre).
  { intros Hb. apply (Hdisjoint b Hb). left. }
  apply sublist_cons_r in Hk2 as [Hk2 | (k' & -> & Hk')].
  - exfalso. apply elem_of_app in Hb_in as [Hb | Hb].
    + apply Hb_pre. by eapply elem_of_sublist.
    + apply Hb_post. by eapply elem_of_sublist.
  - exists k1, k'. split; [done |].
    apply elem_of_app in Ha_in as [Ha1 | Ha2]; [done |].
    exfalso. apply (Hdisjoint a Ha).
    apply elem_of_cons in Ha2 as [-> | Ha2]; [left | right].
    by eapply elem_of_sublist.
Qed.

(** The last step of a path. *)
Lemma tc_last {A} (R : relation A) x z : tc R x z → ∃ y, rtc R x y ∧ R y z.
Proof.
  induction 1 as [x z Hxz | x y z Hxy _ (w & Hyw & Hwz)].
  - by exists x.
  - exists w. split; [by eapply rtc_l | done].
Qed.

(** A node on a cycle is never taken. *)
Lemma cycle_not_taken st :
  ordered nodes edges st →
  ∀ pre x post, code st = pre ++ x :: post → ¬ tc (feeds nodes edges) x x.
Proof.
  intros Hst pre. remember (length pre) as k eqn:Hk. revert pre Hk.
  induction (lt_wf k) as [k _ IH]. intros pre -> x post Hcode Hcycle.
  apply tc_last in Hcycle as (y & Hxy & Hyx).
  assert (Hy : tc (feeds nodes edges) y y).
  { eapply tc_rtc_r; [by apply tc_once | done]. }
  destruct Hyx as (_ & _ & e & He & <- & <-).
  assert (Hin : source e ∈ pre).
  { eapply (ordered_inputs _ _ _ Hst); [done |].
    apply input_nodes_spec. by exists e. }
  apply list_elem_of_split in Hin as (pre1 & pre2 & ->).
  rewrite <- app_assoc in Hcode. cbn in Hcode.
  eapply (IH (length pre1)); [| reflexivity | done..].
  rewrite length_app. cbn. lia.
Qed.

Lemma cycle_keeps_unprocessed st :
  has_cycle nodes edges → ordered nodes edges st →
  (size (processed_nodes st) < length nodes)%nat.
Proof.
  intros [a Ha] Hst. rewrite (ordered_size _ Hst).
  assert (Hnew : a ∉ code st).
  { intros (pre & post & Hcode)%list_elem_of_split.
    by eapply cycle_not_taken. }
  assert (Hle : (length (a :: code st) ≤ length (node_id <$> nodes))%nat).
  { apply submseteq_length, NoDup_submseteq.
    - apply NoDup_cons. split; [done | apply (ordered_nodup _ _ _ Hst)].
    - intros x [-> | Hx]%elem_of_cons; [by eapply feeds_first |].
      by apply (ordered_nodes _ _ _ Hst). }
  rewrite length_fmap in Hle. cbn in Hle. lia.
Qed.

Lemma process_log_cycle fuel st :
  has_cycle nodes edges → ordered nodes edges st →
  process log_node fuel nodes edges st = OutOfFuel.
Proof.
  intros Hcycle. revert st. induction fuel as [| fuel IH]; intros st Hst.
  - cbn. by rewrite decide_True by by apply cycle_keeps_unprocessed.
  - destruct (process_log_first fuel st Hst)
      as (st1 & _ & -> & Hst1 & _); [by apply cycle_keeps_unprocessed |].
    by apply IH.
Qed.

Lemma initial_ordered :
  ordered nodes edges
    {| code := []; node_outputs := ∅; processed_nodes := ∅ |}.
Proof.
  split; cbn.
  - intros x. split; [intros Hx; by apply not_elem_of_empty in Hx |].
    intros Hx. by apply elem_of_nil in Hx.
  - apply NoDup_nil_2.
  - intros x Hx. by apply elem_of_nil in Hx.
  - intros [| ? ?] ? ? Hcode; discriminate Hcode.
Qed.

End Order.

(** On a graph without a cycle, with distinct node ids and edges between
    nodes, one scan per node is enough for the loop to end; every node is
    taken once, and each after all its inputs. *)
Theorem resolved_order_topological nodes edges :
  NoDup (node_id <$> nodes) → edges_closed nodes edges → acyclic nodes edges →
  ∃ order,
    resolved_order (length nodes) nodes edges = Return order
    ∧ order ≡ₚ node_id <$> nodes
    ∧ ∀ e, e ∈ edges → before order (source e) (target e).
Proof.
  intros Hnodup Hclosed Hacyclic. unfold resolved_order.
  destruct (process_log nodes edges (length nodes) _ Hnodup Hacyclic Hclosed
              (initial_ordered nodes edges))
    as (st & more & -> & Hst & Hdone & _); [cbn; lia |].
  exists (code st). split; [reflexivity |].
  assert (Hperm : code st ≡ₚ node_id <$> nodes).
  { apply submseteq_length_Permutation.
    - apply NoDup_submseteq; [apply (ordered_nodup _ _ _ Hst) |].
      apply (ordered_nodes _ _ _ Hst).
    - rewrite length_fmap, <- (ordered_size _ _ _ Hst). lia. }
  split; [done |]. intros e He.
  destruct (Hclosed e He) as [_ Htarget].
  rewrite <- Hperm in Htarget.
  apply list_elem_of_split in Htarget as (pre & post & Hcode).
  exists pre, post. split; [done |].
  eapply (ordered_inputs _ _ _ Hst); [done |].
  apply input_nodes_spec. by exists e.
Qed.

(** Two nodes that are ready when a scan begins are taken by that scan in
    the order of their declaration. *)
Theorem scan_declaration_order nodes edges st a b :
  NoDup (node_id <$> nodes) → ordered nodes edges st →
  a ∈ nodes → b ∈ nodes →
  before (node_id <$> nodes) (node_id a) (node_id b) →
  ready edges st a = true → ready edges st b = true →
  ∃ st' picked,
    scan log_node edges nodes st = Return st'
    ∧ code st' = code st ++ picked
    ∧ before picked (node_id a) (node_id b).
Proof.
  intros Hnodup Hst Ha Hb Hab Ha_ready Hb_ready.
  destruct (scan_log nodes edges nodes st (λ n Hn, Hn) Hst)
    as (st' & picked & Hscan & _ & Hcode & Hpicked & Hall).
  exists st', picked. split_and!; [done.. |].
  eapply sublist_before; eauto.
Qed.

(** X4: two nodes without inputs come out of the loop in the order of their
    declaration. *)
Theorem resolved_order_declaration_order nodes edges a b :
  NoDup (node_id <$> nodes) → edges_closed nodes edges → acyclic nodes edges →
  a ∈ nodes → b ∈ nodes →
  before (node_id <$> nodes) (node_id a) (node_id b) →
  get_input_nodes edges (node_id a) = [] →
  get_input_nodes edges (node_id b) = [] →
  ∃ order,
    resolved_order (length nodes) nodes edges = Return order
    ∧ before order (node_id a) (node_id b).
Proof.
  intros Hnodup Hclosed Hacyclic Ha Hb Hab Ha_in Hb_in.
  unfold resolved_order.
  pose proof (initial_ordered nodes edges) as Hst0.
  assert (Hready : ∀ n, get_input_nodes edges (node_id n) = [] →
    ready edges {| code := []; node_outputs := ∅; processed_nodes := ∅ |} n
    = true).
  { intros n Hn. unfold ready. rewrite Hn. cbn.
    by rewrite bool_decide_eq_true_2 by apply not_elem_of_empty. }
  assert (Hlen : ∃ k, length nodes = S k).
  { destruct nodes; [by apply elem_of_nil in Ha | eauto]. }
  destruct Hlen as [k Hlen]. rewrite Hlen.
  destruct (process_log_first nodes edges k _ Hst0)
    as (st1 & picked & -> & Hst1 & Hcode & Hpicked & Hall);
    [cbn; rewrite size_empty; lia |].
  cbn in Hcode.
  assert (Hbefore : before picked (node_id a) (node_id b)).
  { eapply sublist_before; eauto. }
  destruct (process_log nodes edges k st1 Hnodup Hacyclic Hclosed Hst1)
    as (st & more & -> & _ & _ & Hcode').
  { rewrite (ordered_size _ _ _ Hst1), Hcode.
    destruct Hbefore as (pre & post & -> & _). rewrite length_app. cbn. lia. }
  exists (code st). split; [reflexivity |].
  rewrite Hcode', Hcode. destruct Hbefore as (pre & post & -> & Hpre).
  exists pre, (post ++ more). split; [| done].
  by rewrite <- app_assoc.
Qed.

(** On a graph with a cycle the loop never ends, whatever the emission
    returns: the nodes of the cycle are never ready. *)
Theorem resolved_order_cycle nodes edges fuel :
  has_cycle nodes edges → resolved_order fuel nodes edges = OutOfFuel.
Proof.
  intros Hcycle. unfold resolved_order.
  by rewrite (process_log_cycle nodes edges fuel _ Hcycle
                (initial_ordered nodes edges)).
Qed.

(** The loop on a diamond declared bottom first: c waits for a and b, d for
    c, and a comes before b as declared. *)
Example resolved_order_diamond :
  resolved_order 4 [plain "d"; plain "c"; plain "a"; plain "b"]
    [ example_edge "e1" "a" "c"; example_edge "e2" "b" "c";
      example_edge "e3" "c" "d" ]
  = Return ["a"; "b"; "c"; "d"].
Proof. vm_compute. reflexivity. Qed.

(** Two scans are not enough for it. *)
Example resolved_order_short :
  resolved_order 2 [plain "d"; plain "c"; plain "a"; plain "b"]
    [ example_edge "e1" "a" "c"; example_edge "e2" "b" "c";
      example_edge "e3" "c" "d" ]
  = OutOfFuel.
Proof. vm_compute. reflexivity. Qed.

(** ** The loop follows the recorded order *)

(** A scan with the recording emission returns, and only appends. *)
Lemma scan_log_code edges todo lst :
  ∃ lst' picked,
    scan log_node edges todo lst = Return lst'
    ∧ code lst' = code lst ++ picked.
Proof.
  revert lst. induction todo as [| node rest IH]; intros lst.
  - exists lst, []. by rewrite app_nil_r.
  - cbn [scan]. rewrite visit_log. cbn.
    destruct (ready edges lst node).
    + destruct (IH (take_node node lst)) as (lst' & picked & Hscan & Hcode).
      exists lst', (node_id node :: picked). rewrite Hscan, Hcode. cbn.
      by rewrite <- app_assoc.
    + apply IH.
Qed.

Lemma ready_same edges st lst node :
  processed_nodes st = processed_nodes lst →
  ready edges st node = ready edges lst node.
Proof. unfold ready. by intros ->. Qed.

Lemma visit_ready emit edges node st :
  visit emit edges node st
  = if ready edges st node then emit_and_mark emit edges node st
    else Return st.
Proof.
  unfold visit, ready, emit_and_mark. case_decide as Hin.
  - by rewrite bool_decide_eq_false_2 by auto.
  - rewrite bool_decide_eq_true_2 by done. cbn.
    by destruct (forallb _ _).
Qed.

Lemma find_node nodes node :
  NoDup (node_id <$> nodes) → node ∈ nodes →
  List.find (λ n, bool_decide (node_id n = node_id node)) nodes = Some node.
Proof.
  induction nodes as [| n rest IH]; intros Hnodup Hin.
  - by apply elem_of_nil in Hin.
  - cbn in *. apply NoDup_cons in Hnodup as [Hfresh Hnodup].
    apply elem_of_cons in Hin as [-> | Hin].
    + by rewrite bool_decide_eq_true_2.
    + rewrite bool_decide_eq_false_2; [by apply IH |].
      intros Heq. apply Hfresh. rewrite Heq. by apply list_elem_of_fmap_2.
Qed.

Lemma run_schedule_app emit nodes edges ids1 ids2 st :
  run_schedule emit nodes edges (ids1 ++ ids2) st
  = (run_schedule emit nodes edges ids1 st
       ≫= run_schedule emit nodes edges ids2).
Proof.
  revert st. induction ids1 as [| id rest IH]; intros st; [reflexivity |].
  cbn. destruct (List.find _ nodes) as [node |]; [| apply IH].
  destruct (emit_and_mark emit edges node st) as [st' | e |]; cbn;
    [apply IH | reflexivity..].
Qed.

Section Schedule.

Variable emit : FlowNode → list string → gen_state → outcome gen_state.
Variable nodes : list FlowNode.
Variable edges : list FlowEdge.
Hypothesis Hkeep : keeps_processed emit.
Hypothesis Hnodup : NoDup (node_id <$> nodes).

(** A scan does the work of the nodes that the recording scan picks, in that
    order, and stops where the work raises. *)
Lemma scan_follows todo st lst lst' picked :
  (∀ n, n ∈ todo → n ∈ nodes) →
  processed_nodes st = processed_nodes lst →
  scan log_node edges todo lst = Return lst' →
  code lst' = code lst ++ picked →
  scan emit edges todo st = run_schedule emit nodes edges picked st
  ∧ ∀ st', scan emit edges todo st = Return st' →
           processed_nodes st' = processed_nodes lst'.
Proof.
  revert st lst picked.
  induction todo as [| node rest IH]; intros st lst picked Hsub Hsame Hlog Hcode.
  - cbn in Hlog. injection Hlog as <-.
    rewrite <- (app_nil_r (code lst)) in Hcode at 1.
    apply app_inv_head in Hcode as <-. cbn. split; [done |].
    by intros st' [= <-].
  - cbn [scan] in *. rewrite visit_log in Hlog. cbn in Hlog.
    rewrite visit_ready, (ready_same edges st lst node Hsame).
    assert (Hrest : ∀ n, n ∈ rest → n ∈ nodes)
      by (intros n Hn; apply Hsub; by right).
    destruct (ready edges lst node) eqn:Hready; [| by eapply IH].
    destruct (scan_log_code edges rest (take_node node lst))
      as (lst2 & picked' & Hlog2 & Hcode2).
    rewrite Hlog2 in Hlog. injection Hlog as ->.
    rewrite Hcode2 in Hcode. cbn in Hcode. rewrite <- app_assoc in Hcode.
    apply app_inv_head in Hcode as <-. cbn [run_schedule "++"].
    rewrite (find_node nodes node); [| done | apply Hsub; left].
    unfold emit_and_mark.
    destruct (emit node (get_input_nodes edges (node_id node)) st)
      as [st1 | e |] eqn:Hemit; cbn; [| by split..].
    eapply IH; [done | | exact Hlog2 | exact Hcode2].
    cbn. by rewrite (Hkeep _ _ _ _ Hemit), Hsame.
Qed.

Lemma process_follows fuel st lst lst' order :
  processed_nodes st = processed_nodes lst →
  process log_node fuel nodes edges lst = Return lst' →
  code lst' = code lst ++ order →
  process emit fuel nodes edges st = run_schedule emit nodes edges order st.
Proof.
  revert st lst order.
  induction fuel as [| fuel IH]; intros st lst order Hsame Hlog Hcode;
    cbn [process] in *; rewrite Hsame.
  - case_decide; [discriminate Hlog |]. injection Hlog as <-.
    rewrite <- (app_nil_r (code lst)) in Hcode at 1.
    by apply app_inv_head in Hcode as <-.
  - case_decide.
    2: { injection Hlog as <-.
         rewrite <- (app_nil_r (code lst)) in Hcode at 1.
         by apply app_inv_head in Hcode as <-. }
    destruct (scan_log_code edges nodes lst) as (lst1 & picked & Hscan & Hcode1).
    rewrite Hscan in Hlog. cbn in Hlog.
    assert (Hmore : ∃ more, code lst' = code lst1 ++ more).
    { clear -Hlog. revert lst1 Hlog.
      induction fuel as [| fuel IHf]; intros lst1 Hlog; cbn [process] in Hlog.
      - case_decide; [discriminate Hlog |]. injection Hlog as <-.
        exists []. by rewrite app_nil_r.
      - case_decide.
        2: { injection Hlog as <-. exists []. by rewrite app_nil_r. }
        destruct (scan_log_code edges nodes lst1) as (lst2 & p2 & Hs & Hc).
        rewrite Hs in Hlog. cbn in Hlog.
        destruct (IHf _ Hlog) as [more ->].
        exists (p2 ++ more). by rewrite Hc, app_assoc. }
    destruct Hmore as [more Hcode'].
    rewrite Hcode', Hcode1, <- app_assoc in Hcode.
    apply app_inv_head in Hcode as <-.
    destruct (scan_follows nodes st lst lst1 picked (λ n Hn, Hn) Hsame Hscan Hcode1)
      as [Hrun Hproc].
    rewrite run_schedule_app, <- Hrun.
    destruct (scan emit edges nodes st) as [st1 | e |]; cbn; [| done..].
    eapply IH; [by apply Hproc | exact Hlog | exact Hcode'].
Qed.

End Schedule.

(** X1: The loop does the work of the nodes one after the other in the recorded
    order, whatever that work is, as long as it leaves [processed_nodes]
    alone and node ids are distinct: the order is decided by the graph, and
    the loop stops where the work first raises. *)
Theorem loop_follows_schedule emit fuel nodes edges order st :
  keeps_processed emit → NoDup (node_id <$> nodes) →
  processed_nodes st = ∅ →
  resolved_order fuel nodes edges = Return order →
  process emit fuel nodes edges st = run_schedule emit nodes edges order st.
Proof.
  intros Hkeep Hnodup Hnone. unfold resolved_order.
  destruct (process log_node fuel nodes edges _) as [lst' | e |] eqn:Hlog;
    cbn; [| discriminate..].
  intros [= <-].
  by apply (process_follows emit nodes edges Hkeep Hnodup fuel st
              {| code := []; node_outputs := ∅; processed_nodes := ∅ |}
              lst' (code lst')).
Qed.

Lemma emit_node_keeps_processed py_str by_id :
  keeps_processed (emit_node py_str by_id).
Proof.
  intros node input_nodes st st' Hemit.
  pose proof (emit_node_not_returned py_str by_id node input_nodes st) as Hnot.
  by rewrite Hemit in Hnot.
Qed.

Lemma log_node_keeps_processed : keeps_processed log_node.
Proof. by intros node input_nodes st st' [= <-]. Qed.

Lemma log_node_always_returns : always_returns log_node.
Proof. intros node input_nodes st. by eexists. Qed.

Lemma chain_nodup : NoDup (node_id <$> [plain "a"; plain "b"]).
Proof.
  cbn. apply NoDup_cons. split; [| apply NoDup_singleton].
  intros Hin. apply list_elem_of_singleton in Hin. discriminate Hin.
Qed.

Lemma loop_follows_schedule_witness :
  let nodes := [plain "a"; plain "b"] in
  let edges := [example_edge "e1" "a" "b"] in
  let st := {| code := header; node_outputs := ∅; processed_nodes := ∅ |} in
  process (emit_node example_str (nodes_by_id nodes)) 2 nodes edges st
  = run_schedule (emit_node example_str (nodes_by_id nodes)) nodes edges
      ["a"; "b"] st.
Proof.
  intros nodes edges st.
  apply (loop_follows_schedule
           (emit_node example_str (nodes_by_id nodes)) 2 nodes edges
           ["a"; "b"] st).
  - apply emit_node_keeps_processed.
  - exact chain_nodup.
  - reflexivity.
  - vm_compute. reflexivity.
Defined.

(** ** When the loop comes to its end *)

Section Sound.

Variable emit : FlowNode → list string → gen_state → outcome gen_state.
Variable nodes : list FlowNode.
Variable edges : list FlowEdge.
Hypothesis Hkeep : keeps_processed emit.

Lemma visit_sound node st st' :
  node ∈ nodes → sound nodes edges st →
  visit emit edges node st = Return st' → sound nodes edges st'.
Proof.
  intros Hnode Hst. rewrite visit_ready.
  destruct (ready edges st node) eqn:Hready; [| by intros [= <-]].
  apply ready_spec in Hready as [Hnew Hins].
  unfold emit_and_mark.
  destruct (emit node _ st) as [st1 | e |] eqn:Hemit; cbn; [| discriminate..].
  intros [= <-]. apply Hkeep in Hemit.
  destruct Hst as [Hnodes Hinputs Hacyclic]. split; cbn; rewrite Hemit.
  - intros x [->%elem_of_singleton | Hx]%elem_of_union; [| by apply Hnodes].
    by apply list_elem_of_fmap_2.
  - intros x i [->%elem_of_singleton | Hx]%elem_of_union Hi;
      apply elem_of_union_r; [by apply Hins | by eapply Hinputs].
  - intros x [->%elem_of_singleton | Hx]%elem_of_union; [| by apply Hacyclic].
    intros (y & Hxy & Hyx)%tc_last.
    assert (Hy : tc (feeds nodes edges) y y).
    { eapply tc_rtc_r; [by apply tc_once | done]. }
    apply (Hacyclic y); [| done]. apply Hins.
    destruct Hyx as (_ & _ & e & He & <- & <-).
    apply input_nodes_spec. by exists e.
Qed.

Lemma scan_sound todo st st' :
  (∀ n, n ∈ todo → n ∈ nodes) → sound nodes edges st →
  scan emit edges todo st = Return st' → sound nodes edges st'.
Proof.
  revert st. induction todo as [| node rest IH]; intros st Hsub Hst; cbn.
  - by intros [= <-].
  - destruct (visit emit edges node st) as [st1 | e |] eqn:Hvisit; cbn;
      [| discriminate..].
    apply IH; [intros n Hn; apply Hsub; by right |].
    eapply visit_sound; [apply Hsub; left | done..].
Qed.

Lemma process_sound fuel st st' :
  sound nodes edges st →
  process emit fuel nodes edges st = Return st' →
  sound nodes edges st'
  ∧ (length nodes ≤ size (processed_nodes st'))%nat.
Proof.
  revert st. induction fuel as [| fuel IH]; intros st Hst; cbn [process].
  - case_decide; [discriminate |]. intros [= <-]. split; [done | lia].
  - case_decide; [| intros [= <-]; split; [done | lia]].
    destruct (scan emit edges nodes st) as [st1 | e |] eqn:Hscan; cbn;
      [| discriminate..].
    apply IH. by eapply scan_sound.
Qed.

End Sound.

Lemma sound_initial nodes edges st :
  processed_nodes st = ∅ → sound nodes edges st.
Proof.
  intros Hnone. split; rewrite Hnone; intros x;
    [| intros i |]; intros Hx; by apply not_elem_of_empty in Hx.
Qed.

(** A sound set that is as large as the node list holds every node id
    once. *)
Lemma sound_full nodes edges st :
  sound nodes edges st →
  (length nodes ≤ size (processed_nodes st))%nat →
  elements (processed_nodes st) ≡ₚ node_id <$> nodes.
Proof.
  intros [Hnodes _ _] Hsize. apply submseteq_length_Permutation.
  - apply NoDup_submseteq; [apply NoDup_elements |].
    intros x Hx. by apply Hnodes, elem_of_elements.
  - by rewrite length_fmap.
Qed.

(** X3: The loop returns only on a graph whose node ids are distinct, that has
    no cycle, and in which every edge into a node comes from a node; it
    then has processed exactly the ids of the nodes. This holds whatever
    the work for a node does, as long as it leaves [processed_nodes]
    alone. *)
Theorem loop_returns_only_on_dag emit fuel nodes edges st st' :
  keeps_processed emit → processed_nodes st = ∅ →
  process emit fuel nodes edges st = Return st' →
  NoDup (node_id <$> nodes)
  ∧ acyclic nodes edges
  ∧ (∀ e, e ∈ edges → target e ∈ node_id <$> nodes →
          source e ∈ node_id <$> nodes)
  ∧ (∀ x, x ∈ processed_nodes st' ↔ x ∈ node_id <$> nodes).
Proof.
  intros Hkeep Hnone Hrun.
  destruct (process_sound emit nodes edges Hkeep fuel st st'
              (sound_initial nodes edges st Hnone) Hrun) as [Hsound Hsize].
  pose proof (sound_full nodes edges st' Hsound Hsize) as Hperm.
  destruct Hsound as [Hnodes Hinputs Hacyclic].
  assert (Hall : ∀ x, x ∈ processed_nodes st' ↔ x ∈ node_id <$> nodes).
  { intros x. by rewrite <- Hperm, elem_of_elements. }
  split_and!; [| | | done].
  - rewrite <- Hperm. apply NoDup_elements.
  - intros [a Ha]. apply (Hacyclic a); [| done].
    apply Hall. by eapply feeds_first.
  - intros e He Htarget. apply Hnodes. apply (Hinputs (target e)).
    + by apply Hall.
    + apply input_nodes_spec. by exists e.
Qed.

Lemma loop_returns_only_on_dag_witness :
  process log_node 2 [plain "a"; plain "b"] [example_edge "e1" "a" "b"]
    {| code := []; node_outputs := ∅; processed_nodes := ∅ |}
  = Return {| code := ["a"; "b"];
              node_outputs :=
                <["b" := "result_b"]> (<["a" := "result_a"]> ∅);
              processed_nodes := {[ "b" ]} ∪ ({[ "a" ]} ∪ ∅) |}
  ∧ NoDup (node_id <$> [plain "a"; plain "b"])
  ∧ acyclic [plain "a"; plain "b"] [example_edge "e1" "a" "b"].
Proof.
  split; [reflexivity |].
  destruct (loop_returns_only_on_dag log_node 2
              [plain "a"; plain "b"] [example_edge "e1" "a" "b"]
              {| code := []; node_outputs := ∅; processed_nodes := ∅ |}
              {| code := ["a"; "b"];
                 node_outputs :=
                   <["b" := "result_b"]> (<["a" := "result_a"]> ∅);
                 processed_nodes := {[ "b" ]} ∪ ({[ "a" ]} ∪ ∅) |}
              log_node_keeps_processed eq_refl eq_refl)
    as (Hnodup & Hacyclic & _).
  by split.
Defined.

Lemma run_schedule_total emit nodes edges ids st :
  always_returns emit → ∃ st', run_schedule emit nodes edges ids st = Return st'.
Proof.
  intros Htotal. revert st. induction ids as [| id rest IH]; intros st; cbn.
  - by exists st.
  - destruct (List.find _ nodes) as [node |]; [| apply IH].
    unfold emit_and_mark.
    destruct (Htotal node (get_input_nodes edges (node_id node)) st)
      as [st1 ->]. cbn. apply IH.
Qed.

(** X2: When the work for a node always succeeds, the loop ends within one scan
    per node on every graph with distinct node ids, edges between nodes and
    no cycle: it has done the work once per node, every node after all its
    inputs. *)
Theorem loop_completes_in_topological_order emit nodes edges st :
  always_returns emit → keeps_processed emit →
  NoDup (node_id <$> nodes) → edges_closed nodes edges →
  acyclic nodes edges → processed_nodes st = ∅ →
  ∃ st' order,
    process emit (length nodes) nodes edges st = Return st'
    ∧ run_schedule emit nodes edges order st = Return st'
    ∧ order ≡ₚ node_id <$> nodes
    ∧ (∀ e, e ∈ edges → before order (source e) (target e))
    ∧ (∀ x, x ∈ processed_nodes st' ↔ x ∈ node_id <$> nodes).
Proof.
  intros Htotal Hkeep Hnodup Hclosed Hacyclic Hnone.
  destruct (resolved_order_topological nodes edges Hnodup Hclosed Hacyclic)
    as (order & Horder & Hperm & Htopo).
  destruct (run_schedule_total emit nodes edges order st Htotal) as [st' Hrun].
  assert (Hloop : process emit (length nodes) nodes edges st = Return st').
  { rewrite <- Hrun. unfold resolved_order in Horder.
    destruct (process log_node (length nodes) nodes edges _)
      as [lst' | e |] eqn:Hlog; cbn in Horder; [| discriminate..].
    injection Horder as <-.
    by apply (process_follows emit nodes edges Hkeep Hnodup (length nodes) st
                {| code := []; node_outputs := ∅; processed_nodes := ∅ |}
                lst' (code lst')). }
  exists st', order. split_and!; [done.. |].
  destruct (process_sound emit nodes edges Hkeep (length nodes) st st'
              (sound_initial nodes edges st Hnone) Hloop) as [Hsound Hsize].
  intros x. by rewrite <- (sound_full nodes edges st' Hsound Hsize),
    elem_of_elements.
Qed.

Lemma loop_completes_in_topological_order_witness :
  ∃ st' order,
    process log_node 2 [plain "a"; plain "b"] [example_edge "e1" "a" "b"]
      {| code := []; node_outputs := ∅; processed_nodes := ∅ |} = Return st'
    ∧ run_schedule log_node [plain "a"; plain "b"]
        [example_edge "e1" "a" "b"] order
        {| code := []; node_outputs := ∅; processed_nodes := ∅ |} = Return st'
    ∧ order ≡ₚ node_id <$> [plain "a"; plain "b"]
    ∧ (∀ e, e ∈ [example_edge "e1" "a" "b"] →
            before order (source e) (target e))
    ∧ (∀ x, x ∈ processed_nodes st' ↔
            x ∈ node_id <$> [plain "a"; plain "b"]).
Proof.
  apply (loop_completes_in_topological_order log_node
           [plain "a"; plain "b"] [example_edge "e1" "a" "b"]
           {| code := []; node_outputs := ∅; processed_nodes := ∅ |}).
  - exact log_node_always_returns.
  - exact log_node_keeps_processed.
  - exact chain_nodup.
  - apply chain_acyclic.
  - apply chain_acyclic.
  - reflexivity.
Defined.

Lemma no_edges_acyclic nodes : acyclic nodes [] ∧ edges_closed nodes [].
Proof.
  split.
  - intros [a Ha]. destruct Ha as [x y Hxy | x y z Hxy _];
      destruct Hxy as (_ & _ & e & He & _); by apply elem_of_nil in He.
  - intros e He. by apply elem_of_nil in He.
Qed.

Lemma resolved_order_declaration_order_witness :
  ∃ order,
    resolved_order 2 [plain "a"; plain "b"] [] = Return order
    ∧ before order "a" "b".
Proof.
  apply (resolved_order_declaration_order [plain "a"; plain "b"] []
           (plain "a") (plain "b")).
  - exact chain_nodup.
  - apply no_edges_acyclic.
  - apply no_edges_acyclic.
  - left.
  - right. left.
  - exists ["a"], []. split; [reflexivity | left].
  - reflexivity.
  - reflexivity.
Defined.

(** ** The errors of [run_agent] *)

Section RunAgentErrors.

Variable str_exn : exn → string.
Variable ModelClass : Type.
Variable create_model :
  string → list (string * (PyType * string)) → outcome ModelClass.
Variable agent_run :
  string → string → string → string → option ModelClass → string →
  model_settings → outcome run_result.

Lemma select_model_unsupported r :
  ¬ supported_provider (model_provider (config r)) →
  select_model r
  = Raise (HTTPException 400
             ("Unsupported model provider: " +:+ model_provider (config r))).
Proof.
  unfold supported_provider, select_model. intros Hnot.
  rewrite !elem_of_cons, elem_of_nil in Hnot.
  repeat (case_decide; [tauto |]).
  reflexivity.
Qed.

Lemma select_model_missing_key r :
  supported_provider (model_provider (config r)) →
  used_key (model_provider (config r)) (credentials r) = None
  ∨ used_key (model_provider (config r)) (credentials r) = Some EmptyString →
  select_model r
  = Raise (HTTPException 400 (missing_key_detail (model_provider (config r)))).
Proof.
  unfold supported_provider, select_model, used_key, missing_key_detail.
  intros Hp Hkey. rewrite !elem_of_cons, elem_of_nil in Hp.
  repeat (case_decide; [destruct Hkey as [-> | ->]; reflexivity |]).
  tauto.
Qed.

(** An exception raised before the run of the agent leaves [run_agent] with
    status 500, the one raised as its detail. *)
Lemma run_agent_early_failure r status detail :
  select_model r = Raise (HTTPException status detail) →
  run_agent str_exn ModelClass create_model agent_run r
  = Raise (HTTPException 500 (str_exn (HTTPException status detail))).
Proof. intros Hsel. unfold run_agent, run_agent_body. by rewrite Hsel. Qed.

(** X6: An exception that leaves [run_agent] is an [HTTPException] with
    status 422 or 500, or it is no [Exception] (the cancellation of the
    awaited run, say), was raised by the body and passed both handlers
    unchanged. The exceptions with status 400 raised inside the [try] are
    caught by its last handler and never leave as such. *)
Theorem run_agent_error_status r e :
  run_agent str_exn ModelClass create_model agent_run r = Raise e →
  (∃ detail, e = HTTPException 422 detail ∨ e = HTTPException 500 detail)
  ∨ (∃ cls, e = Interrupt cls
            ∧ run_agent_body ModelClass create_model agent_run r
              = Raise (Interrupt cls)).
Proof.
  unfold run_agent.
  destruct (run_agent_body _ _ _ r) as [response | e' |];
    [discriminate | | discriminate].
  destruct e'; intros [= <-]; eauto.
Qed.

(** X7: A provider other than openai, anthropic and google-gla makes [run_agent]
    fail with status 500 before a model class is built or the agent is run,
    whatever the credentials are. *)
Theorem run_agent_unsupported_provider r :
  ¬ supported_provider (model_provider (config r)) →
  run_agent str_exn ModelClass create_model agent_run r
  = Raise (HTTPException 500
             (str_exn
                (HTTPException 400
                   ("Unsupported model provider: "
                      +:+ model_provider (config r))))).
Proof.
  intros Hnot. apply run_agent_early_failure.
  by apply select_model_unsupported.
Qed.

(** X8: A supported provider whose own key is absent or empty makes [run_agent]
    fail with status 500 before the agent is run. *)
Theorem run_agent_missing_key r :
  supported_provider (model_provider (config r)) →
  used_key (model_provider (config r)) (credentials r) = None
  ∨ used_key (model_provider (config r)) (credentials r) = Some EmptyString →
  run_agent str_exn ModelClass create_model agent_run r
  = Raise (HTTPException 500
             (str_exn
                (HTTPException 400
                   (missing_key_detail (model_provider (config r)))))).
Proof.
  intros Hp Hkey. apply run_agent_early_failure.
  by apply select_model_missing_key.
Qed.

(** X9: Only the key of the configured provider is read: two sets of
    credentials that agree on it give the same outcome. *)
Theorem run_agent_uses_one_credential r c1 c2 :
  used_key (model_provider (config r)) c1
  = used_key (model_provider (config r)) c2 →
  run_agent str_exn ModelClass create_model agent_run (with_credentials r c1)
  = run_agent str_exn ModelClass create_model agent_run (with_credentials r c2).
Proof.
  unfold used_key. intros Hkey.
  unfold run_agent, run_agent_body, select_model, with_credentials. cbn.
  repeat (case_decide; [by rewrite Hkey |]). reflexivity.
Qed.

(** Only the first system prompt is used: the others change nothing. *)
Lemma run_agent_first_system_prompt r p others :
  run_agent str_exn ModelClass create_model agent_run
    (with_system_prompts r (p :: others))
  = run_agent str_exn ModelClass create_model agent_run
      (with_system_prompts r [p]).
Proof. reflexivity. Qed.

End RunAgentErrors.

Lemma run_agent_error_status_witness :
  (∃ detail,
     HTTPException 500 "HTTPException" = HTTPException 422 detail
     ∨ HTTPException 500 "HTTPException" = HTTPException 500 detail)
  ∨ (∃ cls,
       HTTPException 500 "HTTPException" = Interrupt cls
       ∧ run_agent_body unit (λ _ _, Return ()) (fixed_agent DataNone)
           unknown_request
         = Raise (Interrupt cls)).
Proof.
  apply (run_agent_error_status exn_kind unit (λ _ _, Return ())
           (fixed_agent DataNone) unknown_request).
  reflexivity.
Defined.

(** A cancelled run leaves [run_agent] as it is. *)
Example run_agent_cancelled :
  run_agent exn_kind unit (λ _ _, Return ()) cancelled_agent example_request
  = Raise (Interrupt "CancelledError").
Proof. reflexivity. Qed.

Lemma run_agent_unsupported_provider_witness :
  run_agent exn_kind unit (λ _ _, Return ()) (fixed_agent DataNone)
    unknown_request
  = Raise (HTTPException 500 "HTTPException").
Proof.
  apply (run_agent_unsupported_provider exn_kind unit (λ _ _, Return ())
           (fixed_agent DataNone) unknown_request).
  unfold supported_provider. rewrite !elem_of_cons, elem_of_nil.
  intros [H | [H | [H | H]]]; [discriminate H.. | exact H].
Defined.

Lemma run_agent_missing_key_witness :
  run_agent exn_kind unit (λ _ _, Return ()) (fixed_agent DataNone)
    keyless_request
  = Raise (HTTPException 500 "HTTPException").
Proof.
  apply (run_agent_missing_key exn_kind unit (λ _ _, Return ())
           (fixed_agent DataNone) keyless_request).
  - unfold supported_provider. right. left.
  - right. reflexivity.
Defined.

Lemma run_agent_uses_one_credential_witness :
  run_agent exn_kind unit (λ _ _, Return ()) (fixed_agent (DataStr "hi"))
    (with_credentials example_request
       {| openai_api_key := Some "sk-test"; anthropic_api_key := None;
          google_api_key := None |})
  = run_agent exn_kind unit (λ _ _, Return ()) (fixed_agent (DataStr "hi"))
      (with_credentials example_request
         {| openai_api_key := Some "sk-test";
            anthropic_api_key := Some "other";
            google_api_key := Some EmptyString |}).
Proof.
  apply (run_agent_uses_one_credential exn_kind unit (λ _ _, Return ())
           (fixed_agent (DataStr "hi")) example_request).
  reflexivity.
Defined.

(** ** The field dictionary of [create_output_model] *)

Lemma fields_last fields d k :
  dict_get (foldl add_field d fields) k
  = match last (filter (λ f, field_name f = k) fields) with
    | Some f => Some (field_entry f)
    | None => dict_get d k
    end.
Proof.
  revert d. induction fields as [| g rest IH]; intros d; [reflexivity |].
  cbn [foldl]. rewrite IH. unfold add_field.
  destruct (decide (field_name g = k)) as [Hk | Hk].
  - rewrite filter_cons_True by done. rewrite last_cons.
    destruct (last _); [reflexivity |]. rewrite Hk. apply dict_get_set_eq.
  - rewrite filter_cons_False by done.
    destruct (last _); [reflexivity |]. by apply dict_get_set_ne.
Qed.

(** X10: When several fields of a structure bear the same name, the class gets
    the type and the description of the last of them; a name that no field
    bears is no key. *)
Theorem output_fields_last_wins o k :
  dict_get (output_fields o) k
  = field_entry <$> last (filter (λ f, field_name f = k) (structure_fields o)).
Proof.
  unfold output_fields. rewrite fields_last. by destruct (last _).
Qed.

Lemma dict_set_keys {V} (d : list (string * V)) k v :
  (dict_set d k v).*1 = if decide (k ∈ d.*1) then d.*1 else d.*1 ++ [k].
Proof.
  induction d as [| [k' v'] d IH]; cbn.
  - rewrite decide_False; [reflexivity |]. intros Hin. by apply elem_of_nil in Hin.
  - destruct (decide (k' = k)) as [-> | Hne]; cbn.
    + rewrite decide_True; [reflexivity | left].
    + rewrite IH. destruct (decide (k ∈ d.*1)) as [Hin | Hin].
      * rewrite decide_True; [reflexivity | by right].
      * rewrite decide_False; [reflexivity |].
        intros [Heq | Hin']%elem_of_cons; congruence.
Qed.

Lemma fields_keys fields d :
  NoDup d.*1 →
  NoDup (foldl add_field d fields).*1
  ∧ ∀ k, k ∈ (foldl add_field d fields).*1 ↔
         k ∈ d.*1 ∨ k ∈ field_name <$> fields.
Proof.
  revert d. induction fields as [| g rest IH]; intros d Hd; cbn [foldl].
  - split; [done |]. intros k. cbn. rewrite elem_of_nil. tauto.
  - assert (Hkeys : (add_field d g).*1
      = if decide (field_name g ∈ d.*1) then d.*1 else d.*1 ++ [field_name g])
      by apply dict_set_keys.
    destruct (IH (add_field d g)) as [Hnodup Hin].
    { rewrite Hkeys. case_decide as Hg; [done |].
      apply NoDup_app. split_and!; [done | | apply NoDup_singleton].
      intros x Hx ->%list_elem_of_singleton. by apply Hg. }
    split; [done |]. intros k. rewrite Hin, Hkeys, fmap_cons, elem_of_cons.
    case_decide as Hg.
    + split; [tauto |]. intros [Hk | [-> | Hk]]; tauto.
    + rewrite elem_of_app, list_elem_of_singleton. tauto.
Qed.

(** X11: No name is handed twice to [create_model], and the names handed over are
    those of the fields. *)
Theorem output_fields_keys o :
  NoDup (output_fields o).*1
  ∧ ∀ k, k ∈ (output_fields o).*1 ↔ k ∈ field_name <$> structure_fields o.
Proof.
  destruct (fields_keys (structure_fields o) []) as [Hnodup Hin];
    [apply NoDup_nil_2 |].
  split; [done |]. intros k. unfold output_fields. rewrite Hin. cbn.
  rewrite elem_of_nil. tauto.
Qed.

(** ** The lookup table of the nodes *)

Lemma nodes_by_id_from nodes (m : gmap string FlowNode) id :
  foldl (λ m node, <[node_id node := node]> m) m nodes !! id
  = match last (filter (λ n, node_id n = id) nodes) with
    | Some n => Some n
    | None => m !! id
    end.
Proof.
  revert m. induction nodes as [| n rest IH]; intros m; [reflexivity |].
  cbn [foldl]. rewrite IH.
  destruct (decide (node_id n = id)) as [Hid | Hid].
  - rewrite filter_cons_True by done. rewrite last_cons.
    destruct (last _); [reflexivity |]. rewrite Hid. apply lookup_insert_eq.
  - rewrite filter_cons_False by done.
    destruct (last _); [reflexivity |]. by apply lookup_insert_ne.
Qed.

(** X12: [nodes_by_id] finds a node for every id that a node bears and for no
    other; of several nodes with one id it finds the last. *)
Theorem nodes_by_id_last_wins nodes id :
  nodes_by_id nodes !! id = last (filter (λ n, node_id n = id) nodes).
Proof.
  unfold nodes_by_id. rewrite nodes_by_id_from, lookup_empty.
  by destruct (last _).
Qed.

(** ** The exceptions of the generator *)

(** X13: [emit_node] raises on every node, in every state: [KeyError] on a
    provider outside the table; otherwise [AttributeError] on
    [systemPrompts] for a node without inputs, and for a node with inputs
    [AttributeError] on [selectedOutputFields] at its first input
    ([KeyError] if no node bears that id). *)
Theorem emit_node_outcome py_str by_id node input_nodes st :
  emit_node py_str by_id node input_nodes st
  = Raise (emit_failure by_id node input_nodes).
Proof.
  unfold emit_node, emit_failure, dict_getitem.
  destruct (dict_get _ _) as [setup |]; [| reflexivity]. cbn.
  destruct input_nodes as [| input_id rest]; [reflexivity |].
  unfold input_construction, collect_selected.
  by destruct (by_id !! input_id).
Qed.

(** X14: [generate_python_code] returns a text exactly when the node list is
    empty; the text is then the fixed frame of the program, whatever the
    edges are and with no scan at all. *)
Theorem generate_python_code_returns_iff py_str fuel nodes edges text :
  generate_python_code py_str fuel nodes edges = Return text
  ↔ nodes = [] ∧ text = join newline (header ++ run_flow_head ++ footer).
Proof.
  rewrite generate_python_code_outcome. split.
  - destruct nodes as [| node rest]; [by intros [= <-] |].
    destruct fuel; [discriminate |].
    by destruct (first_source edges (node :: rest)).
  - by intros [-> ->].
Qed.

(** X15: Every exception that leaves the endpoint [/api/generate-code] has
    status 500, and its detail is the text of the exception raised at a node
    that no edge targets. *)
Theorem generate_code_error py_str str_exn fuel nodes edges e :
  generate_code py_str str_exn fuel nodes edges = Raise e →
  ∃ n, n ∈ nodes ∧ get_input_nodes edges (node_id n) = []
       ∧ e = HTTPException 500 (str_exn (failure_of n)).
Proof.
  unfold generate_code. rewrite generate_python_code_outcome.
  destruct nodes as [| node rest]; [discriminate |].
  destruct fuel; [discriminate |].
  destruct (first_source edges (node :: rest)) as [n |] eqn:Hfirst;
    [| discriminate].
  intros Hraised.
  assert (He : e = HTTPException 500 (str_exn (failure_of n))).
  { revert Hraised. unfold failure_of.
    by destruct (dict_get _ _); intros [= <-]. }
  exists n. apply find_some in Hfirst as [Hin Hsource].
  split; [by apply list_elem_of_In |].
  split; [| done]. by apply bool_decide_eq_true in Hsource.
Qed.

Lemma generate_code_error_witness :
  ∃ n, n ∈ [example_node "b" "unknown" None None; plain "a"]
       ∧ get_input_nodes [] (node_id n) = []
       ∧ HTTPException 500 "KeyError"
         = HTTPException 500 (exn_kind (failure_of n)).
Proof.
  apply (generate_code_error example_str exn_kind 1
           [example_node "b" "unknown" None None; plain "a"] []).
  reflexivity.
Defined.

(** ** Edges that the loop does not look at *)

Lemma scan_edges_ext emit edges1 edges2 todo st :
  (∀ n, n ∈ todo →
        get_input_nodes edges1 (node_id n) = get_input_nodes edges2 (node_id n)) →
  scan emit edges1 todo st = scan emit edges2 todo st.
Proof.
  revert st. induction todo as [| node rest IH]; intros st Hsame; [done |].
  cbn. unfold visit. rewrite (Hsame node) by left.
  assert (Hrest : ∀ st', scan emit edges1 rest st' = scan emit edges2 rest st').
  { intros st'. apply IH. intros n Hn. apply Hsame. by right. }
  case_decide; cbn; [apply Hrest |].
  destruct (forallb _ _); cbn; [| apply Hrest].
  destruct (emit node _ st); cbn; [apply Hrest | done..].
Qed.

Lemma process_edges_ext emit fuel nodes edges1 edges2 st :
  (∀ n, n ∈ nodes →
        get_input_nodes edges1 (node_id n) = get_input_nodes edges2 (node_id n)) →
  process emit fuel nodes edges1 st = process emit fuel nodes edges2 st.
Proof.
  intros Hsame. revert st. induction fuel as [| fuel IH]; intros st; [done |].
  cbn [process]. case_decide; [| done].
  rewrite (scan_edges_ext emit edges1 edges2 nodes st Hsame).
  destruct (scan emit edges2 nodes st); cbn; [apply IH | done..].
Qed.

(** X5: An edge whose target is the id of no node is ignored: the loop, whatever
    the work for a node is, and [generate_python_code] behave as without
    it. *)
Theorem edge_to_unknown_target_ignored py_str emit fuel nodes edges1 e edges2 st :
  target e ∉ node_id <$> nodes →
  process emit fuel nodes (edges1 ++ e :: edges2) st
  = process emit fuel nodes (edges1 ++ edges2) st
  ∧ generate_python_code py_str fuel nodes (edges1 ++ e :: edges2)
    = generate_python_code py_str fuel nodes (edges1 ++ edges2).
Proof.
  intros Hnew.
  assert (Hsame : ∀ n, n ∈ nodes →
    get_input_nodes (edges1 ++ e :: edges2) (node_id n)
    = get_input_nodes (edges1 ++ edges2) (node_id n)).
  { intros n Hn. unfold get_input_nodes.
    rewrite !filter_app, filter_cons_False; [done |].
    intros Htarget. apply Hnew. rewrite Htarget. by apply list_elem_of_fmap_2. }
  split; [by apply process_edges_ext |].
  unfold generate_python_code.
  by rewrite (process_edges_ext _ fuel nodes _ _ _ Hsame).
Qed.

Lemma edge_to_unknown_target_ignored_witness :
  process log_node 2 [plain "a"; plain "b"]
    ([example_edge "e1" "a" "b"] ++ example_edge "e2" "b" "z" :: [])
    {| code := []; node_outputs := ∅; processed_nodes := ∅ |}
  = process log_node 2 [plain "a"; plain "b"]
      ([example_edge "e1" "a" "b"] ++ [])
      {| code := []; node_outputs := ∅; processed_nodes := ∅ |}
  ∧ generate_python_code example_str 2 [plain "a"; plain "b"]
      ([example_edge "e1" "a" "b"] ++ example_edge "e2" "b" "z" :: [])
    = generate_python_code example_str 2 [plain "a"; plain "b"]
        ([example_edge "e1" "a" "b"] ++ []).
Proof.
  apply (edge_to_unknown_target_ignored example_str log_node 2
           [plain "a"; plain "b"] [example_edge "e1" "a" "b"]
           (example_edge "e2" "b" "z") []).
  cbn. intros Hin.
  apply elem_of_cons in Hin as [Hz | Hin]; [discriminate Hz |].
  apply list_elem_of_singleton in Hin. discriminate Hin.
Defined.
